(** * abort-request: cancellable request wrapper and auto-abort coordinator

    A shallow embedding of [src/index.ts]:

    - [isAbortError], the classifier of rejection reasons;
    - [createAbortAbleRequest], which pairs one [AbortController] with a
      function [fun_] racing the underlying request against the abort
      signal, and with [abort];
    - [createAutoAbortExpiredRequest], whose closure variable [cleanup]
      remembers how to abort the most recent wrapper.

    JavaScript values are an inductive type; the heap (abort controllers
    and promises) and the closure variable [cleanup] are threaded through a
    state-and-exception monad.  Every call into user code (the request, the
    argument builder) and every bookkeeping statement appends an event to a
    trace, so that statements about order can be read off the trace.

    User callbacks are modelled by their synchronous completion (a value or
    a throw); they do not call back into the coordinator. *)

From stdpp Require Import base list strings.
From Stdlib Require Import ZArith Lia.

Set Warnings "-register-all".

(** ** JavaScript values *)

(** A completion record: normal completion with a value, or an abrupt
    [throw] completion carrying the thrown value. *)
Inductive Completion (E A : Type) : Type :=
| Normal (a : A)
| Throw (e : E).
Arguments Normal {E A} a.
Arguments Throw {E A} e.

(** The values the library can be handed.  An object is the list of the
    properties visible on it (own and inherited), each given by the
    completion of reading it: [Normal v] for a data property or a getter
    returning [v], [Throw e] for a getter (or proxy trap) throwing [e].
    A function has a [name] and a behaviour when called with [{ signal }],
    the signal being identified by the number of its wrapper: it returns an
    argument list or throws.  [JsAbortSignal w] is the signal object of
    wrapper [w].  The payload of a number is opaque here. *)
Inductive JsValue : Type :=
| JsUndefined
| JsNull
| JsBoolean (b : bool)
| JsNumber (n : Z)
| JsBigInt (n : Z)
| JsString (s : string)
| JsSymbol (description : string)
| JsObject (props : list (string * Completion JsValue JsValue))
| JsFunction (name : string) (call : nat -> Completion JsValue (list JsValue))
| JsAbortSignal (w : nat).

Abbreviation Result := (Completion JsValue).

(** [typeof v] *)
Definition typeof (v : JsValue) : string :=
  match v with
  | JsUndefined => "undefined"
  | JsNull => "object"
  | JsBoolean _ => "boolean"
  | JsNumber _ => "number"
  | JsBigInt _ => "bigint"
  | JsString _ => "string"
  | JsSymbol _ => "symbol"
  | JsObject _ => "object"
  | JsFunction _ _ => "function"
  | JsAbortSignal _ => "object"
  end.

(** [new TypeError(message)] and [new DOMException(message, name)], as seen
    through their properties. *)
Definition TypeError (message : string) : JsValue :=
  JsObject [("name", Normal (JsString "TypeError"));
            ("message", Normal (JsString message))].

Definition DOMException (message name : string) : JsValue :=
  JsObject [("name", Normal (JsString name));
            ("message", Normal (JsString message))].

(** The reason of every cancellation: [new DOMException('Aborted', 'AbortError')]. *)
Definition AbortError : JsValue := DOMException "Aborted" "AbortError".

Fixpoint lookup_prop (key : string) (props : list (string * Result JsValue))
  : option (Result JsValue) :=
  match props with
  | [] => None
  | (k, c) :: rest => if String.eqb k key then Some c else lookup_prop key rest
  end.

(** The member expression [v.name].  Reading a property of [undefined] or
    [null] throws a [TypeError]; primitives are read through their wrapper
    prototypes, none of which defines [name]; a function has its name. *)
Definition get_name (v : JsValue) : Result JsValue :=
  match v with
  | JsUndefined => Throw (TypeError "Cannot read properties of undefined (reading 'name')")
  | JsNull => Throw (TypeError "Cannot read properties of null (reading 'name')")
  | JsObject props =>
      match lookup_prop "name" props with
      | Some c => c
      | None => Normal JsUndefined
      end
  | JsFunction name _ => Normal (JsString name)
  | _ => Normal JsUndefined
  end.

(** [v === s] for a string literal [s]. *)
Definition strict_eq_string (v : JsValue) (s : string) : bool :=
  match v with
  | JsString s' => String.eqb s' s
  | _ => false
  end.

(** [export const isAbortError = (error: any) => error.name === 'AbortError'] *)
Definition isAbortError (error : JsValue) : Result bool :=
  match get_name error with
  | Normal name => Normal (strict_eq_string name "AbortError")
  | Throw e => Throw e
  end.

(** What the classifier is meant to detect, stated on the value itself:
    the visible [name] property is the string ['AbortError']. *)
Definition has_marker (v : JsValue) : bool :=
  match v with
  | JsObject props =>
      match lookup_prop "name" props with
      | Some (Normal (JsString s)) => String.eqb s "AbortError"
      | _ => false
      end
  | JsFunction name _ => String.eqb name "AbortError"
  | _ => false
  end.

(** The inputs on which reading [name] completes normally. *)
Definition name_readable (v : JsValue) : bool :=
  match v with
  | JsUndefined | JsNull => false
  | JsObject props =>
      match lookup_prop "name" props with
      | Some (Throw _) => false
      | _ => true
      end
  | _ => true
  end.

(** ** The heap and the trace *)

(** An [AbortController] with its signal: the [aborted] flag and the
    ['abort'] listeners registered by [fun_], in registration order.  Each
    such listener is the closure [() => reject(new DOMException(...))] of
    one promise, recorded by the number of that promise. *)
Record AbortController : Type := {
  aborted : bool;
  listeners : list nat
}.

Inductive PromiseState : Type :=
| Pending
| Fulfilled (value : JsValue)
| Rejected (reason : JsValue).

Definition is_pending (s : PromiseState) : bool :=
  match s with Pending => true | _ => false end.

Inductive Event : Type :=
| EvConstruct (w : nat)
    (** [createAbortAbleRequest(request)] built wrapper [w] *)
| EvAbort (w : nat)
    (** the [abort] function of wrapper [w] was called *)
| EvRecord (w : nat)
    (** [cleanup] was assigned the closure aborting wrapper [w] *)
| EvBuilder (w : nat)
    (** the caller's argument function was called with the signal of [w] *)
| EvInvoke (w : nat) (arg : list JsValue)
    (** wrapper [w] was called with [arg] *)
| EvRequest (w : nat) (arg : list JsValue) (view : list bool)
    (** [request(...arg)] was called on behalf of [w]; [view] is the
        [aborted] flag of every signal at that moment *)
| EvSettle (p : nat) (s : PromiseState)
    (** promise [p] left the pending state *).

Record State : Type := {
  controllers : list AbortController;
  promises : list PromiseState;
  cleanup : option nat;
    (** [let cleanup: () => void]: [None] while unassigned, [Some w] for
        the closure [() => { abortAbleReQuest.abort() }] of wrapper [w] *)
  trace : list Event
}.

Definition init : State :=
  {| controllers := []; promises := []; cleanup := None; trace := [] |}.

Definition set_controllers (f : list AbortController -> list AbortController)
  (st : State) : State :=
  {| controllers := f (controllers st); promises := promises st;
     cleanup := cleanup st; trace := trace st |}.

Definition set_promises (f : list PromiseState -> list PromiseState)
  (st : State) : State :=
  {| controllers := controllers st; promises := f (promises st);
     cleanup := cleanup st; trace := trace st |}.

Definition set_cleanup (c : option nat) (st : State) : State :=
  {| controllers := controllers st; promises := promises st;
     cleanup := c; trace := trace st |}.

Definition add_event (ev : Event) (st : State) : State :=
  {| controllers := controllers st; promises := promises st;
     cleanup := cleanup st; trace := trace st ++ [ev] |}.

(** The events appended between two states. *)
Definition events_since (st st' : State) : list Event :=
  drop (length (trace st)) (trace st').

(** ** The state-and-exception monad *)

Definition M (A : Type) : Type := State -> State * Result A.

Definition ret {A} (a : A) : M A := fun st => (st, Normal a).

Definition throw {A} (e : JsValue) : M A := fun st => (st, Throw e).

Definition bind {A B} (m : M A) (k : A -> M B) : M B :=
  fun st =>
    match m st with
    | (st1, Normal a) => k a st1
    | (st1, Throw e) => (st1, Throw e)
    end.

Definition try_catch {A} (m : M A) (handler : JsValue -> M A) : M A :=
  fun st =>
    match m st with
    | (st1, Normal a) => (st1, Normal a)
    | (st1, Throw e) => handler e st1
    end.

Definition get_state : M State := fun st => (st, Normal st).

Definition modify (f : State -> State) : M unit := fun st => (f st, Normal tt).

Definition emit (ev : Event) : M unit := modify (add_event ev).

Definition lift {A} (c : Result A) : M A := fun st => (st, c).

Declare Scope js_scope.
Delimit Scope js_scope with js.
Notation "x <- m ;; k" := (bind m (fun x => k))
  (at level 100, m at next level, right associativity) : js_scope.
Notation "m ;; k" := (bind m (fun _ => k))
  (at level 100, right associativity) : js_scope.
Open Scope js_scope.

(** ** Promises and abort controllers *)

(** The resolving functions of promise [p]: the first call settles the
    promise, every later call is ignored. *)
Definition settle (p : nat) (s : PromiseState) : M unit :=
  fun st =>
    match promises st !! p with
    | Some Pending =>
        (add_event (EvSettle p s) (set_promises (fun ps => <[p:=s]> ps) st), Normal tt)
    | _ => (st, Normal tt)
    end.

Definition resolve (p : nat) (value : JsValue) : M unit := settle p (Fulfilled value).

Definition reject (p : nat) (reason : JsValue) : M unit := settle p (Rejected reason).

(** [new Promise(executor)]: the executor runs at once; if it throws, the
    promise is rejected with what it threw. *)
Definition new_Promise (executor : nat -> M unit) : M nat :=
  st <- get_state ;;
  let p := length (promises st) in
  modify (set_promises (fun ps => ps ++ [Pending])) ;;
  try_catch (executor p) (fun e => reject p e) ;;
  ret p.

(** [Promise.reject(reason)] *)
Definition Promise_reject (reason : JsValue) : M nat :=
  new_Promise (fun p => reject p reason).

(** [new AbortController()] *)
Definition new_AbortController : M nat :=
  st <- get_state ;;
  let w := length (controllers st) in
  modify (set_controllers (fun cs => cs ++ [{| aborted := false; listeners := [] |}])) ;;
  ret w.

(** [signal.aborted] *)
Definition signal_aborted (w : nat) : M bool :=
  st <- get_state ;;
  ret (match controllers st !! w with Some c => aborted c | None => false end).

(** [signal.addEventListener('abort', () => reject(...))] for promise [p] *)
Definition addEventListener (w p : nat) : M unit :=
  modify (set_controllers (fun cs =>
    match cs !! w with
    | Some c => <[w := {| aborted := aborted c; listeners := listeners c ++ [p] |}]> cs
    | None => cs
    end)).

(** Dispatching ['abort']: the listeners run in registration order. *)
Fixpoint dispatch_abort (ls : list nat) : M unit :=
  match ls with
  | [] => ret tt
  | p :: rest => reject p AbortError ;; dispatch_abort rest
  end.

(** [abortControl.abort()]: on the first call the signal becomes aborted
    and ['abort'] is dispatched; on an aborted signal nothing happens. *)
Definition AbortController_abort (w : nat) : M unit :=
  st <- get_state ;;
  match controllers st !! w with
  | Some c =>
      if aborted c then ret tt
      else
        modify (set_controllers (fun cs =>
          <[w := {| aborted := true; listeners := listeners c |}]> cs)) ;;
        dispatch_abort (listeners c)
  | None => ret tt
  end.

(** ** Sample inputs used by the examples *)

(** A request that returns a promise whatever it is given. *)
Definition request_ok (arg : list JsValue) : Result unit := Normal tt.

(** A request that throws [new Error('boom')] instead of returning. *)
Definition boom : JsValue :=
  JsObject [("name", Normal (JsString "Error")); ("message", Normal (JsString "boom"))].

Definition request_boom (arg : list JsValue) : Result unit := Throw boom.

(** [({ signal }) => [{ id: 7, signal }]] *)
Definition builder_id7 : JsValue :=
  JsFunction "" (fun w =>
    Normal [JsObject [("id", Normal (JsNumber 7)); ("signal", Normal (JsAbortSignal w))]]).

(** [() => { throw new Error('boom') }] *)
Definition builder_boom : JsValue := JsFunction "" (fun _ => Throw boom).

(** ** The library *)

Section Library.

(** The underlying request: called with an argument list, it either
    returns a promise (settled later by the environment) or throws. *)
Variable request : list JsValue -> Result unit.

(** [request(...arg)], observed in the trace together with the state of
    every signal at the moment of the call. *)
Definition call_request (w : nat) (arg : list JsValue) : M unit :=
  st <- get_state ;;
  emit (EvRequest w arg (aborted <$> controllers st)) ;;
  lift (request arg).

(** [createAbortAbleRequest(request)] returns the function [fun] with its
    properties [abort] and [signal]; the wrapper is identified by the
    number of its controller. *)
Definition createAbortAbleRequest : M nat :=
  abortControl <- new_AbortController ;;
  emit (EvConstruct abortControl) ;;
  ret abortControl.

(** [const abort = () => { abortControl.abort(); }] *)
Definition abort (w : nat) : M unit :=
  emit (EvAbort w) ;;
  AbortController_abort w.

(** [const fun = (...arg) => { ... }].  The callbacks given to [.then] and
    [.catch] run later, see [then_callback] and [catch_callback]. *)
Definition fun_ (w : nat) (arg : list JsValue) : M nat :=
  emit (EvInvoke w arg) ;;
  a <- signal_aborted w ;;
  if a then Promise_reject AbortError
  else
    new_Promise (fun p =>
      addEventListener w p ;;
      call_request w arg).

(** [(res) => { resolve(res); }] of the invocation that returned promise [p] *)
Definition then_callback (p : nat) (res : JsValue) : M unit := resolve p res.

(** [(err) => { reject(err); }] of the invocation that returned promise [p] *)
Definition catch_callback (p : nat) (err : JsValue) : M unit := reject p err.

(** [argFun({ signal })] *)
Definition call_builder (argFun : JsValue) (w : nat) : M (list JsValue) :=
  match argFun with
  | JsFunction _ call => emit (EvBuilder w) ;; lift (call w)
  | _ => throw (TypeError "argFun is not a function")
  end.

(** [arg[0]] *)
Definition first_arg (arg : list JsValue) : JsValue := default JsUndefined (arg !! 0).

(** [const getArg = (): P => { ... }] *)
Definition getArg (abortAbleReQuest : nat) (arg : list JsValue) : M (list JsValue) :=
  if String.eqb (typeof (first_arg arg)) "function" && (length arg =? 1)
  then call_builder (first_arg arg) abortAbleReQuest
  else ret arg.

(** [const autoAbortExpiredRequest = (...arg) => { ... }] *)
Definition autoAbortExpiredRequest (arg : list JsValue) : M nat :=
  abortAbleReQuest <- createAbortAbleRequest ;;
  st <- get_state ;;
  match cleanup st with
  | Some previous => abort previous
  | None => ret tt
  end ;;
  modify (set_cleanup (Some abortAbleReQuest)) ;;
  emit (EvRecord abortAbleReQuest) ;;
  requestArg <- getArg abortAbleReQuest arg ;;
  fun_ abortAbleReQuest requestArg.

(** [autoAbortExpiredRequest.abort = () => { cleanup(); }]: calling the
    unassigned variable throws a [TypeError]. *)
Definition autoAbortExpiredRequest_abort : M unit :=
  st <- get_state ;;
  match cleanup st with
  | Some current => abort current
  | None => throw (TypeError "cleanup is not a function")
  end.

(** The order of section 4.2 of the specification, written with the same
    building blocks, for comparison with [autoAbortExpiredRequest]: cancel
    the previous instance, construct, resolve the arguments, record,
    invoke. *)
Definition spec_order_call (arg : list JsValue) : M nat :=
  st <- get_state ;;
  match cleanup st with
  | Some previous => abort previous
  | None => ret tt
  end ;;
  abortAbleReQuest <- createAbortAbleRequest ;;
  requestArg <- getArg abortAbleReQuest arg ;;
  modify (set_cleanup (Some abortAbleReQuest)) ;;
  emit (EvRecord abortAbleReQuest) ;;
  fun_ abortAbleReQuest requestArg.

(** ** Clients *)

(** What a client of one coordinator, and the environment, can do. *)
Inductive Action : Type :=
| ACall (arg : list JsValue)
    (** [coordinator(...arg)] *)
| AAbort
    (** [coordinator.abort()] *)
| AThen (p : nat) (res : JsValue)
    (** the underlying promise of invocation [p] fulfilled with [res] and
        its [.then] callback runs *)
| ACatch (p : nat) (err : JsValue)
    (** the underlying promise of invocation [p] rejected with [err] and
        its [.catch] callback runs *).

Definition step (a : Action) (st : State) : State :=
  match a with
  | ACall arg => fst (autoAbortExpiredRequest arg st)
  | AAbort => fst (autoAbortExpiredRequest_abort st)
  | AThen p res => fst (then_callback p res st)
  | ACatch p err => fst (catch_callback p err st)
  end.

Definition run (acts : list Action) (st : State) : State := foldl (fun s a => step a s) st acts.

(** A burst of calls issued one after the other with nothing in between:
    for each call, the state it leaves and what it returned. *)
Fixpoint issue (calls : list (list JsValue)) (st : State) : list (State * Result nat) :=
  match calls with
  | [] => []
  | arg :: rest =>
      let r := autoAbortExpiredRequest arg st in
      r :: issue rest (fst r)
  end.

(** The state after a burst. *)
Definition after_burst (calls : list (list JsValue)) (st : State) : State :=
  run (ACall <$> calls) st.

(** What can happen to one invocation of a bare wrapper [w] that returned
    promise [p]: the wrapper is aborted, or the underlying promise
    completes. *)
Inductive RaceEvent : Type :=
| Cancel
| Complete (outcome : Result JsValue).

Definition race_step (w p : nat) (ev : RaceEvent) : M unit :=
  match ev with
  | Cancel => abort w
  | Complete (Normal res) => then_callback p res
  | Complete (Throw err) => catch_callback p err
  end.

Fixpoint race (w p : nat) (evs : list RaceEvent) (st : State) : State * list (Result unit) :=
  match evs with
  | [] => (st, [])
  | ev :: rest =>
      let (st1, r) := race_step w p ev st in
      let (st2, rs) := race w p rest st1 in
      (st2, r :: rs)
  end.

(** The state in which the first event of a race leaves the promise. *)
Definition race_outcome (evs : list RaceEvent) : PromiseState :=
  match evs with
  | [] => Pending
  | Cancel :: _ => Rejected AbortError
  | Complete (Normal res) :: _ => Fulfilled res
  | Complete (Throw err) :: _ => Rejected err
  end.

Definition is_settle_of (p : nat) (ev : Event) : bool :=
  match ev with
  | EvSettle q _ => q =? p
  | _ => false
  end.

(** How many times promise [p] was settled in a run of events. *)
Definition settlements (p : nat) (evs : list Event) : nat :=
  length (List.filter (is_settle_of p) evs).

End Library.

(** ** Auxiliary definitions used in the statements *)

(** Events recording that a promise settled. *)
Definition is_settle_event (ev : Event) : Prop :=
  match ev with EvSettle _ _ => True | _ => False end.

(** What dispatching ['abort'] to the listeners [ls] does to a promise. *)
Definition cancelled (ls : list nat) (q : nat) (s : PromiseState) : PromiseState :=
  if is_pending s && bool_decide (q ∈ ls) then Rejected AbortError else s.

(** Promise [p] exists and is pending. *)
Definition pending_at (st : State) (p : nat) : bool :=
  match promises st !! p with Some Pending => true | _ => false end.

(** The controllers after [abort] on wrapper [w]. *)
Definition mark_aborted (w : nat) (cs : list AbortController) : list AbortController :=
  match cs !! w with
  | Some c => <[w := {| aborted := true; listeners := listeners c |}]> cs
  | None => cs
  end.

(** The listeners that a call of [abort] on wrapper [w] fires. *)
Definition live_listeners (st : State) (w : nat) : list nat :=
  match controllers st !! w with
  | Some c => if aborted c then [] else listeners c
  | None => []
  end.

(** The promise and the events that [fun_] adds, by what the request does. *)
Definition invoked_promise (c : Result unit) : PromiseState :=
  match c with Normal _ => Pending | Throw e => Rejected e end.

(** The events [fun_] appends after calling [request]. *)
Definition invoked_events (p : nat) (c : Result unit) : list Event :=
  match c with Normal _ => [] | Throw e => [EvSettle p (Rejected e)] end.

(** The builder of the single-callable form, if the call has that form. *)
Definition builder_of (arg : list JsValue) : option (nat -> Result (list JsValue)) :=
  match arg with
  | [JsFunction _ call] => Some call
  | _ => None
  end.

(** The controller made by [new AbortController()]. *)
Definition fresh_controller : AbortController := {| aborted := false; listeners := [] |}.

(** The listeners fired when a call cancels the recorded wrapper. *)
Definition superseded_listeners (st : State) : list nat :=
  match cleanup st with
  | Some previous => live_listeners st previous
  | None => []
  end.

(** The events of cancelling the recorded wrapper, [evs] being the
    settlements its listeners cause. *)
Definition cancel_events (st : State) (evs : list Event) : list Event :=
  match cleanup st with
  | Some previous => EvAbort previous :: evs
  | None => []
  end.

(** The invariant of the states a coordinator can reach: the recorded
    wrapper exists; every other wrapper is aborted; a pending promise has
    its listener registered on an unaborted signal. *)
Record Inv (st : State) : Prop := {
  inv_recorded : forall w, cleanup st = Some w -> w < length (controllers st);
  inv_superseded : forall w c,
    controllers st !! w = Some c -> cleanup st <> Some w -> aborted c = true;
  inv_pending : forall p,
    promises st !! p = Some Pending ->
    exists w c, controllers st !! w = Some c /\ aborted c = false /\ p ∈ listeners c
}.

(** The argument list a call forwards: the builder's result in the
    single-callable form, the received arguments otherwise. *)
Definition resolved (w : nat) (arg : list JsValue) : Result (list JsValue) :=
  match builder_of arg with
  | Some call => call w
  | None => Normal arg
  end.

(** The event of calling the builder, in the single-callable form. *)
Definition builder_events (w : nat) (arg : list JsValue) : list Event :=
  match builder_of arg with
  | Some _ => [EvBuilder w]
  | None => []
  end.

(** No operation of a race threw. *)
Definition all_normal (rs : list (Result unit)) : Prop := Forall (fun r => r = Normal tt) rs.

(** The events of the coordinator's own statements, as opposed to the
    settlement of promises and the calls of [request]. *)
Definition is_bookkeeping (ev : Event) : bool :=
  match ev with
  | EvSettle _ _ | EvRequest _ _ _ => false
  | _ => true
  end.

(** The bookkeeping statements among a run of events, in order. *)
Definition bookkeeping (evs : list Event) : list Event := List.filter is_bookkeeping evs.

(** The argument lists [request] was called with, in order. *)
Definition requested (evs : list Event) : list (list JsValue) :=
  omap (fun ev => match ev with EvRequest _ arg _ => Some arg | _ => None end) evs.

(** The signals the caller's argument function was called with, in order. *)
Definition builder_calls (evs : list Event) : list nat :=
  omap (fun ev => match ev with EvBuilder w => Some w | _ => None end) evs.

(** A bare wrapper just built, and the same after [abort()]. *)
Definition fresh_wrapper : State := fst (createAbortAbleRequest init).

Definition aborted_wrapper : State := fst (abort 0 fresh_wrapper).

(** A coordinator after one call with a literal argument. *)
Definition after_first_call : State :=
  fst (autoAbortExpiredRequest request_ok [JsNumber 1] init).

(** Three calls in a row, the last in the single-callable form, followed
    by late results for the first and the last. *)
Definition sample_burst : list (list JsValue) :=
  [[JsNumber 1]; [JsNumber 2]; [builder_id7]].

Definition sample_later : list Action :=
  [AThen 0 (JsNumber 10); AThen 2 (JsNumber 30)].

(** The request completes, then the wrapper is aborted twice, then a
    stray rejection arrives. *)
Definition sample_race : list RaceEvent :=
  [Complete (Normal (JsNumber 1)); Cancel; Cancel; Complete (Throw boom)].

(** ** Further clients and measures *)

(** A late callback for a promise other than [p]. *)
Definition completes_other (p : nat) (a : Action) : Prop :=
  match a with
  | AThen q _ | ACatch q _ => q <> p
  | _ => False
  end.

Definition is_call (a : Action) : bool :=
  match a with ACall _ => true | _ => false end.

(** The calls of a history. *)
Definition calls_in (hist : list Action) : list Action := List.filter is_call hist.

(** Calls spaced out in time: each call is followed by the fulfilment of
    its own underlying promise before the next call is made.  [base] is
    the number of the promise the first call returns. *)
Fixpoint spaced_actions (base : nat) (rounds : list (list JsValue * JsValue)) : list Action :=
  match rounds with
  | [] => []
  | (arg, res) :: rest => ACall arg :: AThen base res :: spaced_actions (S base) rest
  end.

(** At most the promise created last is pending. *)
Definition last_pending (st : State) : Prop :=
  forall p, promises st !! p = Some Pending -> S p = length (promises st).

(** What a call of [request] sees: the signal of the wrapper making the
    call is the last one and is unaborted, every older signal is aborted. *)
Definition only_newest_live (ev : Event) : Prop :=
  match ev with
  | EvRequest w _ view =>
      length view = S w /\ view !! w = Some false /\
      forall v, v < w -> view !! v = Some true
  | _ => True
  end.

(** A history whose calls all pass their arguments literally. *)
Definition literal_calls (hist : list Action) : Prop :=
  Forall (fun a => match a with ACall arg => builder_of arg = None | _ => True end) hist.

(** *** A wrapper used on its own *)

(** What the owner of one wrapper built by [createAbortAbleRequest] can
    do with it, and what the environment does to its invocations. *)
Inductive WrapperOp : Type :=
| WInvoke (arg : list JsValue)
    (** [wrapper(...arg)] *)
| WAbort
    (** [wrapper.abort()] *)
| WThen (p : nat) (res : JsValue)
    (** the [.then] callback of the invocation that returned [p] runs *)
| WCatch (p : nat) (err : JsValue)
    (** the [.catch] callback of the invocation that returned [p] runs *).

Section BareWrapper.

Variable request : list JsValue -> Result unit.

Definition wrapper_step (w : nat) (op : WrapperOp) (st : State) : State :=
  match op with
  | WInvoke arg => fst (fun_ request w arg st)
  | WAbort => fst (abort w st)
  | WThen p res => fst (then_callback p res st)
  | WCatch p err => fst (catch_callback p err st)
  end.

Definition wrapper_run (w : nat) (ops : list WrapperOp) (st : State) : State :=
  foldl (fun s op => wrapper_step w op s) st ops.

End BareWrapper.

(** The promises numbered [base] and above that are pending have their
    listener on the unaborted signal of wrapper [w]. *)
Definition wrapper_inv (w base : nat) (st : State) : Prop :=
  exists c, controllers st !! w = Some c /\
    forall q, base <= q -> promises st !! q = Some Pending ->
      aborted c = false /\ q ∈ listeners c.

(** Wrapper [w] is aborted, no promise numbered [base] or above is
    pending, and every promise numbered [later] or above is rejected with
    [AbortError]. *)
Definition wrapper_dead (w base later : nat) (st : State) : Prop :=
  (exists c, controllers st !! w = Some c /\ aborted c = true) /\
  (forall q, base <= q -> promises st !! q <> Some Pending) /\
  (forall q, later <= q -> q < length (promises st) ->
     promises st !! q = Some (Rejected AbortError)).

(** *** The caller of the usage notes *)














Section Caller.

Variable request : list JsValue -> Result unit.




End Caller.



(** *** More sample inputs *)

Definition sample_two_calls : list Action := [ACall [JsNumber 1]; ACall [JsNumber 2]].

Definition sample_rounds : list (list JsValue * JsValue) :=
  [([JsNumber 1], JsString "a"); ([JsNumber 2], JsString "b")].


(** Two invocations of one wrapper. *)
Definition sample_ops : list WrapperOp := [WInvoke [JsNumber 1]; WInvoke [JsNumber 2]].

(** * Proofs *)

(** ** Basic facts about the heap operations *)

Lemma lookup_snoc_length {A} (l : list A) (x : A) : (l ++ [x]) !! length l = Some x.
Proof. by apply list_lookup_middle. Qed.

Lemma insert_snoc_length {A} (l : list A) (x y : A) : <[length l := y]> (l ++ [x]) = l ++ [y].
Proof. by rewrite insert_app_r_alt, Nat.sub_diag by lia. Qed.

Lemma events_since_app st st' evs :
  trace st' = trace st ++ evs -> events_since st st' = evs.
Proof. intros H. unfold events_since. rewrite H. apply drop_app_length. Qed.

Lemma pending_at_true st p : pending_at st p = true <-> promises st !! p = Some Pending.
Proof.
  unfold pending_at. destruct (promises st !! p) as [[]|]; split; intros H; congruence.
Qed.

Lemma settle_pending p s st :
  promises st !! p = Some Pending ->
  settle p s st =
    (add_event (EvSettle p s) (set_promises (fun ps => <[p:=s]> ps) st), Normal tt).
Proof. intros H. unfold settle. by rewrite H. Qed.

Lemma settle_inv p s st st' r :
  settle p s st = (st', r) ->
  r = Normal tt /\ controllers st' = controllers st /\ cleanup st' = cleanup st /\
  length (promises st') = length (promises st) /\
  (forall q, promises st' !! q =
     (fun old => if is_pending old && bool_decide (q = p) then s else old) <$> promises st !! q) /\
  exists evs, trace st' = trace st ++ evs /\ Forall is_settle_event evs /\
    settlements p evs = (if pending_at st p then 1 else 0) /\
    forall q, q <> p -> settlements q evs = 0.
Proof.
  unfold settle, pending_at. intros H.
  assert (Hother : forall q, promises st !! p <> Some Pending ->
    promises st !! q =
      (fun old => if is_pending old && bool_decide (q = p) then s else old) <$> promises st !! q).
  { intros q Hp. destruct (promises st !! q) as [old|] eqn:Hq; simpl; [|done].
    destruct old; simpl; try done. case_bool_decide; [congruence|done]. }
  destruct (promises st !! p) as [[]|] eqn:Hp; inversion H; subst; clear H; simpl.
  - repeat split; try done.
    + by rewrite length_insert.
    + intros q. destruct (decide (q = p)) as [->|Hne].
      * rewrite list_lookup_insert_eq by (by eapply lookup_lt_Some).
        rewrite Hp. simpl. by rewrite bool_decide_eq_true_2.
      * rewrite list_lookup_insert_ne by done.
        destruct (promises st !! q) as [old|]; simpl; [|done].
        rewrite bool_decide_eq_false_2 by done. by rewrite andb_false_r.
    + exists [EvSettle p s]. repeat split.
      * by repeat constructor.
      * unfold settlements. simpl. by rewrite Nat.eqb_refl.
      * intros q Hq. unfold settlements. simpl.
        destruct (Nat.eqb_spec p q); [congruence|done].
  - repeat split; try done; [intros q; by apply Hother|].
    exists []. rewrite app_nil_r. repeat split; done.
  - repeat split; try done; [intros q; by apply Hother|].
    exists []. rewrite app_nil_r. repeat split; done.
  - repeat split; try done; [intros q; by apply Hother|].
    exists []. rewrite app_nil_r. repeat split; done.
Qed.

Lemma settlements_app p evs1 evs2 :
  settlements p (evs1 ++ evs2) = settlements p evs1 + settlements p evs2.
Proof. unfold settlements. by rewrite List.filter_app, length_app. Qed.

Lemma cancelled_nil q s : cancelled [] q s = s.
Proof.
  unfold cancelled. rewrite bool_decide_eq_false_2 by apply not_elem_of_nil.
  by rewrite andb_false_r.
Qed.

Lemma cancelled_cons p rest q old :
  cancelled rest q (if is_pending old && bool_decide (q = p) then Rejected AbortError else old)
  = cancelled (p :: rest) q old.
Proof.
  unfold cancelled. destruct old; simpl; try done.
  destruct (decide (q = p)) as [->|Hne].
  - rewrite bool_decide_eq_true_2 by done. simpl.
    by rewrite bool_decide_eq_true_2 by apply list_elem_of_here.
  - rewrite (bool_decide_eq_false_2 (q = p)) by done. simpl.
    assert (H : q ∈ p :: rest <-> q ∈ rest) by (rewrite elem_of_cons; intuition congruence).
    by rewrite (bool_decide_ext _ _ H).
Qed.

Lemma dispatch_abort_inv ls st st' r :
  dispatch_abort ls st = (st', r) ->
  r = Normal tt /\ controllers st' = controllers st /\ cleanup st' = cleanup st /\
  length (promises st') = length (promises st) /\
  (forall q, promises st' !! q = cancelled ls q <$> promises st !! q) /\
  exists evs, trace st' = trace st ++ evs /\ Forall is_settle_event evs /\
    forall q, settlements q evs = (if pending_at st q && bool_decide (q ∈ ls) then 1 else 0).
Proof.
  revert st. induction ls as [|p rest IH]; intros st H; simpl in H.
  - inversion H; subst; clear H. repeat split; try done.
    + intros q. destruct (promises st' !! q); simpl; [|done]. by rewrite cancelled_nil.
    + exists []. rewrite app_nil_r. repeat split; try done.
      intros q. rewrite bool_decide_eq_false_2 by apply not_elem_of_nil.
      by rewrite andb_false_r.
  - unfold bind in H. destruct (reject p AbortError st) as [st1 r1] eqn:H1.
    apply settle_inv in H1 as (-> & Hc1 & Hk1 & Hl1 & Hp1 & evs1 & Ht1 & Hs1 & Hn1 & Hn1').
    apply IH in H as (-> & Hc2 & Hk2 & Hl2 & Hp2 & evs2 & Ht2 & Hs2 & Hn2).
    repeat split; try congruence.
    + intros q. rewrite Hp2, Hp1.
      destruct (promises st !! q) as [old|]; simpl; [|done].
      by rewrite cancelled_cons.
    + exists (evs1 ++ evs2). repeat split.
      * by rewrite Ht2, Ht1, app_assoc.
      * by apply Forall_app.
      * intros q. rewrite settlements_app, Hn2.
        unfold pending_at at 1. rewrite Hp1.
        destruct (decide (q = p)) as [->|Hne].
        -- rewrite Hn1. unfold pending_at.
           destruct (promises st !! p) as [[]|]; simpl;
             rewrite ?bool_decide_eq_true_2 by done; simpl;
             rewrite ?(bool_decide_eq_true_2 (p ∈ p :: rest)) by apply list_elem_of_here;
             try done.
        -- rewrite Hn1' by done. unfold pending_at.
           assert (Hin : q ∈ p :: rest <-> q ∈ rest) by (rewrite elem_of_cons; intuition congruence).
           rewrite (bool_decide_ext _ _ Hin).
           destruct (promises st !! q) as [[]|]; simpl; try done.
           by rewrite (bool_decide_eq_false_2 (q = p)) by done.
Qed.

Lemma AbortController_abort_inv w st st' r :
  AbortController_abort w st = (st', r) ->
  r = Normal tt /\ controllers st' = mark_aborted w (controllers st) /\
  cleanup st' = cleanup st /\
  length (promises st') = length (promises st) /\
  (forall q, promises st' !! q = cancelled (live_listeners st w) q <$> promises st !! q) /\
  exists evs, trace st' = trace st ++ evs /\ Forall is_settle_event evs /\
    forall q, settlements q evs =
      (if pending_at st q && bool_decide (q ∈ live_listeners st w) then 1 else 0).
Proof.
  unfold AbortController_abort, bind, get_state, live_listeners, mark_aborted. intros H.
  assert (Hnone : forall q, promises st !! q = cancelled [] q <$> promises st !! q).
  { intros q. destruct (promises st !! q); simpl; [|done]. by rewrite cancelled_nil. }
  assert (Hev : exists evs : list Event, trace st = trace st ++ evs /\ Forall is_settle_event evs /\
    forall q, settlements q evs = (if pending_at st q && bool_decide (q ∈ []) then 1 else 0)).
  { exists []. rewrite app_nil_r. repeat split; try done.
    intros q. rewrite bool_decide_eq_false_2 by apply not_elem_of_nil.
    by rewrite andb_false_r. }
  destruct (controllers st !! w) as [c|] eqn:Hc.
  - destruct (aborted c) eqn:Ha.
    + inversion H; subst; clear H. repeat split; try done.
      symmetry. apply list_insert_id. rewrite Hc. f_equal. destruct c; simpl in *; congruence.
    + unfold modify in H. simpl in H.
      apply dispatch_abort_inv in H as (-> & Hc2 & Hk2 & Hl2 & Hp2 & evs & Ht & Hs & Hn).
      simpl in *. repeat split; try done. by exists evs.
  - inversion H; subst; clear H. repeat split; done.
Qed.

Section Facts.

Variable request : list JsValue -> Result unit.

Lemma abort_inv w st st' r :
  abort w st = (st', r) ->
  r = Normal tt /\ controllers st' = mark_aborted w (controllers st) /\
  cleanup st' = cleanup st /\
  length (promises st') = length (promises st) /\
  (forall q, promises st' !! q = cancelled (live_listeners st w) q <$> promises st !! q) /\
  exists evs, trace st' = trace st ++ EvAbort w :: evs /\ Forall is_settle_event evs /\
    forall q, settlements q evs =
      (if pending_at st q && bool_decide (q ∈ live_listeners st w) then 1 else 0).
Proof.
  unfold abort, bind, emit, modify. simpl. intros H.
  apply AbortController_abort_inv in H as (-> & Hc & Hk & Hl & Hp & evs & Ht & Hs & Hn).
  simpl in *. repeat split; try done.
  exists evs. repeat split; try done. by rewrite Ht, <- app_assoc.
Qed.

Lemma fmap_aborted_insert (cs : list AbortController) w c c' :
  cs !! w = Some c -> aborted c' = aborted c ->
  aborted <$> <[w := c']> cs = aborted <$> cs.
Proof.
  intros H Ha. rewrite list_fmap_insert. apply list_insert_id.
  by rewrite list_lookup_fmap, H, Ha.
Qed.

Lemma fun_aborted st w arg c :
  controllers st !! w = Some c -> aborted c = true ->
  fun_ request w arg st =
    ({| controllers := controllers st;
        promises := promises st ++ [Rejected AbortError];
        cleanup := cleanup st;
        trace := trace st ++ [EvInvoke w arg; EvSettle (length (promises st)) (Rejected AbortError)] |},
     Normal (length (promises st))).
Proof.
  intros Hc Ha.
  unfold fun_, bind, emit, modify, signal_aborted, get_state, ret. simpl.
  rewrite Hc, Ha.
  unfold Promise_reject, new_Promise, bind, get_state, modify, try_catch, reject, ret. simpl.
  rewrite settle_pending by apply lookup_snoc_length.
  unfold add_event, set_promises. simpl.
  by rewrite insert_snoc_length, <- app_assoc.
Qed.

Lemma fun_live st w arg c :
  controllers st !! w = Some c -> aborted c = false ->
  let p := length (promises st) in
  fun_ request w arg st =
    ({| controllers := <[w := {| aborted := false; listeners := listeners c ++ [p] |}]> (controllers st);
        promises := promises st ++ [invoked_promise (request arg)];
        cleanup := cleanup st;
        trace := trace st ++ [EvInvoke w arg; EvRequest w arg (aborted <$> controllers st)]
                   ++ invoked_events p (request arg) |},
     Normal p).
Proof.
  intros Hc Ha p.
  unfold fun_, bind, emit, modify, signal_aborted, get_state, ret. simpl.
  rewrite Hc, Ha.
  unfold new_Promise, bind, get_state, modify, try_catch, ret, addEventListener, call_request,
    bind, get_state, emit, modify, lift. simpl.
  rewrite Hc, Ha. rewrite (fmap_aborted_insert _ _ _ _ Hc) by (by rewrite Ha).
  destruct (request arg) as [[]|e]; simpl.
  - unfold add_event, set_promises, set_controllers. simpl.
    by rewrite <- app_assoc, Hc, Ha.
  - unfold reject. rewrite settle_pending by apply lookup_snoc_length.
    unfold add_event, set_promises, set_controllers. simpl.
    rewrite insert_snoc_length. by rewrite <- !app_assoc, Hc, Ha.
Qed.

Lemma getArg_spec w arg st :
  getArg w arg st =
    match builder_of arg with
    | Some call => (add_event (EvBuilder w) st, call w)
    | None => (st, Normal arg)
    end.
Proof.
  unfold getArg, first_arg.
  destruct arg as [|v [|v' rest]]; simpl; try done.
  - destruct v; simpl; try done.
  - destruct v; simpl; try done.
Qed.

Lemma live_listeners_snoc st c w :
  live_listeners (add_event (EvConstruct (length (controllers st)))
    (set_controllers (fun cs => cs ++ [c]) st)) w = 
  if decide (w = length (controllers st)) then (if aborted c then [] else listeners c)
  else live_listeners st w.
Proof.
  unfold live_listeners. simpl. case_decide as Hw.
  - subst. by rewrite lookup_snoc_length.
  - destruct (decide (w < length (controllers st))).
    + by rewrite lookup_app_l.
    + rewrite !lookup_ge_None_2; [done|lia|rewrite length_app; simpl; lia].
Qed.

(** The state in which a call resolves its arguments: the new wrapper is
    built, the recorded one is aborted, the new one is recorded. *)
Lemma call_prepare st :
  let w := length (controllers st) in
  exists st_c evs,
    (forall arg, autoAbortExpiredRequest request arg st =
       match getArg w arg st_c with
       | (st_d, Normal requestArg) => fun_ request w requestArg st_d
       | (st_d, Throw e) => (st_d, Throw e)
       end) /\
    controllers st_c =
      match cleanup st with
      | Some previous => mark_aborted previous (controllers st ++ [fresh_controller])
      | None => controllers st ++ [fresh_controller]
      end /\
    cleanup st_c = Some w /\
    length (promises st_c) = length (promises st) /\
    (forall q, promises st_c !! q = cancelled (superseded_listeners st) q <$> promises st !! q) /\
    trace st_c = trace st ++ [EvConstruct w] ++ cancel_events st evs ++ [EvRecord w] /\
    Forall is_settle_event evs /\
    (forall q, settlements q evs =
       (if pending_at st q && bool_decide (q ∈ superseded_listeners st) then 1 else 0)).
Proof.
  intros w. unfold autoAbortExpiredRequest, superseded_listeners, cancel_events.
  unfold createAbortAbleRequest, new_AbortController, bind, get_state, modify, emit, ret. simpl.
  fold w. destruct (cleanup st) as [previous|] eqn:Hk.
  - destruct (abort previous _) as [st_b r] eqn:Hab.
    apply abort_inv in Hab as (-> & Hc & Hk' & Hl & Hp & evs & Ht & Hs & Hn).
    simpl in *.
    exists (add_event (EvRecord w) (set_cleanup (Some w) st_b)), evs.
    repeat split; simpl; try done.
    + intros q. rewrite Hp. unfold w. rewrite live_listeners_snoc.
      case_decide as Hw; [|done]. simpl.
      unfold live_listeners. by rewrite (lookup_ge_None_2 (controllers st) previous) by lia.
    + rewrite Ht. by rewrite <- !app_assoc.
    + intros q. rewrite Hn. unfold w. rewrite live_listeners_snoc.
      unfold pending_at. simpl.
      case_decide as Hw; [|done]. simpl.
      unfold live_listeners. by rewrite (lookup_ge_None_2 (controllers st) previous) by lia.
  - eexists (add_event (EvRecord w) (set_cleanup (Some w) _)), [].
    repeat split; simpl; try done.
    + intros q. destruct (promises st !! q); simpl; [|done]. by rewrite cancelled_nil.
    + by rewrite <- !app_assoc.
    + intros q. by rewrite andb_false_r.
Qed.

Lemma mark_aborted_length w cs : length (mark_aborted w cs) = length cs.
Proof. unfold mark_aborted. destruct (cs !! w); [apply length_insert|done]. Qed.

Lemma mark_aborted_lookup w cs v :
  mark_aborted w cs !! v =
    (fun c => if bool_decide (v = w) then {| aborted := true; listeners := listeners c |} else c)
      <$> cs !! v.
Proof.
  unfold mark_aborted. destruct (cs !! w) as [c|] eqn:Hw.
  - destruct (decide (v = w)) as [->|Hne].
    + rewrite list_lookup_insert_eq by (by eapply lookup_lt_Some).
      rewrite Hw. simpl. by rewrite bool_decide_eq_true_2.
    + rewrite list_lookup_insert_ne by done.
      destruct (cs !! v); simpl; [|done]. by rewrite bool_decide_eq_false_2.
  - destruct (cs !! v) eqn:Hv; simpl; [|done].
    rewrite bool_decide_eq_false_2; [done|]. intros ->. congruence.
Qed.

(** ** The invariant of a coordinator *)

Lemma Inv_init : Inv init.
Proof. split; simpl; intros; done. Qed.

Lemma inv_pending_superseded st p :
  Inv st -> promises st !! p = Some Pending -> p ∈ superseded_listeners st.
Proof.
  intros HI Hp. destruct (inv_pending _ HI _ Hp) as (w & c & Hc & Ha & Hin).
  unfold superseded_listeners, live_listeners.
  destruct (cleanup st) as [w'|] eqn:Hk.
  - destruct (decide (w' = w)) as [->|Hne].
    + by rewrite Hc, Ha.
    + assert (aborted c = true) by (eapply inv_superseded; eauto; congruence). congruence.
  - assert (aborted c = true) by (eapply inv_superseded; eauto; congruence). congruence.
Qed.

Lemma cancelled_lookup_pending ls (ps ps' : list PromiseState) q :
  (forall q, ps' !! q = cancelled ls q <$> ps !! q) ->
  ps' !! q = Some Pending -> ps !! q = Some Pending /\ q ∉ ls.
Proof.
  intros H Hq. rewrite H in Hq. destruct (ps !! q) as [s|]; simpl in Hq; [|done].
  unfold cancelled in Hq. destruct s; simpl in *; try done.
  case_bool_decide; [done|]. done.
Qed.

Lemma cancelled_lookup_settled ls (ps ps' : list PromiseState) q s :
  (forall q, ps' !! q = cancelled ls q <$> ps !! q) ->
  ps !! q = Some s -> is_pending s = false -> ps' !! q = Some s.
Proof.
  intros H Hq Hs. rewrite H, Hq. simpl. unfold cancelled. by rewrite Hs.
Qed.

Lemma cancelled_lookup_fired ls (ps ps' : list PromiseState) q :
  (forall q, ps' !! q = cancelled ls q <$> ps !! q) ->
  ps !! q = Some Pending -> q ∈ ls -> ps' !! q = Some (Rejected AbortError).
Proof.
  intros H Hq Hin. rewrite H, Hq. simpl. unfold cancelled. simpl.
  by rewrite bool_decide_eq_true_2.
Qed.

(** A call leaves the coordinator in a state satisfying the invariant, and
    every promise that was pending when the call was issued is rejected
    with [AbortError] when it returns. *)
Lemma call_inv st arg st' r :
  Inv st -> autoAbortExpiredRequest request arg st = (st', r) ->
  Inv st' /\
  cleanup st' = Some (length (controllers st)) /\
  (forall q, promises st !! q = Some Pending -> promises st' !! q = Some (Rejected AbortError)) /\
  (forall q s, promises st !! q = Some s -> is_pending s = false -> promises st' !! q = Some s).
Proof.
  intros HI Hcall.
  destruct (call_prepare st) as (st_c & evs & Hrun & Hc & Hk & Hl & Hp & Ht & Hs & Hn).
  set (w := length (controllers st)) in *.
  rewrite Hrun, getArg_spec in Hcall. clear Hrun.
  assert (Hlen : length (controllers st_c) = S w).
  { rewrite Hc. destruct (cleanup st); rewrite ?mark_aborted_length, length_app; simpl; lia. }
  assert (Hw : controllers st_c !! w = Some fresh_controller).
  { rewrite Hc. destruct (cleanup st) as [previous|] eqn:Hkst.
    - rewrite mark_aborted_lookup. unfold w. rewrite lookup_snoc_length. simpl.
      rewrite bool_decide_eq_false_2; [done|].
      pose proof (inv_recorded _ HI _ Hkst). lia.
    - apply lookup_snoc_length. }
  assert (Hold : forall v c, v <> w -> controllers st_c !! v = Some c -> aborted c = true).
  { intros v c Hv Hvc. rewrite Hc in Hvc.
    assert (Hlt : v < w).
    { apply lookup_lt_Some in Hvc.
      destruct (cleanup st); rewrite ?mark_aborted_length, length_app in Hvc; simpl in Hvc; lia. }
    destruct (cleanup st) as [previous|] eqn:Hkst.
    - rewrite mark_aborted_lookup, lookup_app_l in Hvc by done.
      destruct (controllers st !! v) as [c0|] eqn:Hv0; simpl in Hvc; [|done].
      case_bool_decide; inversion Hvc; subst; [done|].
      eapply inv_superseded; eauto; congruence.
    - rewrite lookup_app_l in Hvc by done. eapply inv_superseded; eauto; congruence. }
  assert (Hnop : forall q, promises st_c !! q <> Some Pending).
  { intros q Hq. eapply cancelled_lookup_pending in Hq as [Hq Hnin]; [|exact Hp].
    apply Hnin. by apply inv_pending_superseded. }
  assert (Hrej : forall q, promises st !! q = Some Pending ->
                           promises st_c !! q = Some (Rejected AbortError)).
  { intros q Hq. eapply cancelled_lookup_fired; eauto. by apply inv_pending_superseded. }
  assert (Hkeep : forall q s, promises st !! q = Some s -> is_pending s = false ->
                              promises st_c !! q = Some s).
  { intros q s Hq Hs'. eapply cancelled_lookup_settled; eauto. }
  assert (Hgo : forall st_d st' r requestArg,
    controllers st_d = controllers st_c -> promises st_d = promises st_c ->
    cleanup st_d = cleanup st_c ->
    fun_ request w requestArg st_d = (st', r) ->
    Inv st' /\
    cleanup st' = Some w /\
    (forall q, promises st !! q = Some Pending -> promises st' !! q = Some (Rejected AbortError)) /\
    (forall q s, promises st !! q = Some s -> is_pending s = false -> promises st' !! q = Some s)).
  { clear Hcall st' r. intros st_d st' r requestArg Hdc Hdp Hdk Hfun.
    rewrite (fun_live st_d w requestArg fresh_controller) in Hfun by (by rewrite ?Hdc).
    inversion Hfun; subst st' r; clear Hfun. simpl. rewrite Hdc, Hdp, Hdk.
    split; [split; simpl|repeat split].
    - intros v Hv. rewrite Hk in Hv. injection Hv as <-. rewrite length_insert. lia.
    - intros v c Hvc Hne. rewrite Hk in Hne.
      destruct (decide (v = w)) as [->|Hvw]; [congruence|].
      rewrite list_lookup_insert_ne in Hvc by done. eauto.
    - intros p Hpend.
      destruct (decide (p < length (promises st_c))) as [Hlt|Hge].
      + rewrite lookup_app_l in Hpend by done. by apply Hnop in Hpend.
      + exists w, {| aborted := false; listeners := [] ++ [length (promises st_c)] |}.
        rewrite list_lookup_insert_eq by lia. repeat split; try done.
        simpl. apply lookup_lt_Some in Hpend. rewrite length_app in Hpend. simpl in Hpend.
        assert (p = length (promises st_c)) as -> by lia. apply list_elem_of_here.
    - done.
    - intros q Hq. rewrite lookup_app_l by (rewrite Hl; by eapply lookup_lt_Some). auto.
    - intros q s Hq Hs'. rewrite lookup_app_l by (rewrite Hl; by eapply lookup_lt_Some). eauto. }
  destruct (builder_of arg) as [call|].
  - destruct (call w) as [requestArg|e] eqn:Hcallw.
    + eapply Hgo; [| | |exact Hcall]; done.
    + inversion Hcall; subst st' r; clear Hcall. simpl.
      split; [split; simpl|repeat split]; try done.
      * intros v Hv. rewrite Hk in Hv. injection Hv as <-. lia.
      * intros v c Hvc Hne. rewrite Hk in Hne.
        destruct (decide (v = w)) as [->|Hvw]; [congruence|]. eauto.
      * intros p Hpend. by apply Hnop in Hpend.
  - eapply Hgo; [| | |exact Hcall]; done.
Qed.

Lemma abort_action_inv st st' r :
  Inv st -> autoAbortExpiredRequest_abort st = (st', r) ->
  Inv st' /\
  (forall q s, promises st !! q = Some s -> is_pending s = false -> promises st' !! q = Some s).
Proof.
  intros HI H. unfold autoAbortExpiredRequest_abort, bind, get_state in H.
  destruct (cleanup st) as [current|] eqn:Hk.
  - apply abort_inv in H as (-> & Hc & Hk' & Hl & Hp & evs & Ht & Hs & Hn).
    split; [split|].
    + intros v Hv. rewrite Hc, mark_aborted_length. apply (inv_recorded _ HI). congruence.
    + intros v c Hvc Hne. rewrite Hc, mark_aborted_lookup in Hvc.
      destruct (controllers st !! v) as [c0|] eqn:Hv0; simpl in Hvc; [|done].
      case_bool_decide; inversion Hvc; subst; [done|].
      eapply inv_superseded; eauto; congruence.
    + intros p Hpend.
      eapply cancelled_lookup_pending in Hpend as [Hpend Hnin]; [|exact Hp].
      exfalso. apply Hnin. apply inv_pending_superseded in Hpend; [|done].
      unfold superseded_listeners in Hpend. by rewrite Hk in Hpend.
    + intros q s Hq Hs'. eapply cancelled_lookup_settled; eauto.
  - unfold throw in H. inversion H; subst. split; [done|auto].
Qed.

Lemma settle_action_inv p s st st' r :
  Inv st -> settle p s st = (st', r) ->
  Inv st' /\
  (forall q s, promises st !! q = Some s -> is_pending s = false -> promises st' !! q = Some s).
Proof.
  intros HI H.
  apply settle_inv in H as (-> & Hc & Hk & Hl & Hp & _).
  split; [split|].
  - intros v Hv. rewrite Hc. apply (inv_recorded _ HI). congruence.
  - intros v c Hvc Hne. rewrite Hc in Hvc. rewrite Hk in Hne. eapply inv_superseded; eauto.
  - intros q Hq. rewrite Hc. apply (inv_pending _ HI).
    rewrite Hp in Hq. destruct (promises st !! q) as [[]|]; simpl in Hq; try done.
  - intros q s' Hq Hs'. rewrite Hp, Hq. simpl. by rewrite Hs'.
Qed.

Lemma step_inv a st :
  Inv st ->
  Inv (step request a st) /\
  (forall q s, promises st !! q = Some s -> is_pending s = false ->
               promises (step request a st) !! q = Some s).
Proof.
  intros HI. destruct a as [arg| |p res|p err]; simpl.
  - destruct (autoAbortExpiredRequest request arg st) as [st' r] eqn:H.
    apply call_inv in H as (? & ? & ? & ?); auto.
  - destruct (autoAbortExpiredRequest_abort st) as [st' r] eqn:H.
    by apply abort_action_inv in H.
  - unfold then_callback, resolve. destruct (settle p (Fulfilled res) st) as [st' r] eqn:H.
    by apply settle_action_inv in H.
  - unfold catch_callback, reject. destruct (settle p (Rejected err) st) as [st' r] eqn:H.
    by apply settle_action_inv in H.
Qed.

Lemma run_app acts1 acts2 st :
  run request (acts1 ++ acts2) st = run request acts2 (run request acts1 st).
Proof. unfold run. apply foldl_app. Qed.

Lemma run_inv acts st :
  Inv st ->
  Inv (run request acts st) /\
  (forall q s, promises st !! q = Some s -> is_pending s = false ->
               promises (run request acts st) !! q = Some s).
Proof.
  revert st. induction acts as [|a acts IH]; intros st HI; simpl.
  - auto.
  - destruct (step_inv a st HI) as [HI1 Hst1].
    destruct (IH _ HI1) as [HI2 Hst2]. split; [done|]. eauto.
Qed.

Lemma reachable_inv hist : Inv (run request hist init).
Proof. apply run_inv, Inv_init. Qed.

Lemma burst_superseded calls st later i st_i p :
  Inv st ->
  (forall i st_i p, issue request calls st !! i = Some (st_i, Normal p) ->
     S i < length calls -> promises st_i !! p = Some Pending) ->
  issue request calls st !! i = Some (st_i, Normal p) ->
  S i < length calls ->
  promises (run request later (after_burst request calls st)) !! p = Some (Rejected AbortError).
Proof.
  unfold after_burst.
  revert st i. induction calls as [|arg rest IH]; intros st i HI Hpend Hi Hlt; [done|].
  simpl in Hi, Hlt.
  destruct (autoAbortExpiredRequest request arg st) as [st1 r1] eqn:Hcall.
  destruct (call_inv _ _ _ _ HI Hcall) as (HI1 & _).
  simpl. rewrite Hcall. simpl.
  destruct i as [|i]; simpl in Hi.
  - injection Hi as <- ->.
    assert (Hp : promises st1 !! p = Some Pending).
    { apply (Hpend 0 st1 p); simpl; [by rewrite Hcall|lia]. }
    destruct rest as [|arg2 rest]; [simpl in Hlt; lia|]. simpl.
    destruct (autoAbortExpiredRequest request arg2 st1) as [st2 r2] eqn:Hcall2.
    destruct (call_inv _ _ _ _ HI1 Hcall2) as (HI2 & _ & Hrej & _).
    simpl. rewrite <- run_app.
    apply run_inv; [done| |done]. by apply Hrej.
  - apply (IH st1 i); [done| |done|lia].
    intros j st_j q Hj Hlt'. apply (Hpend (S j) st_j q); simpl; [by rewrite Hcall|lia].
Qed.

(** Everything a call does from a state of the coordinator: its events in
    order, what it returns, and the new promise. *)
Lemma call_spec st arg :
  Inv st ->
  let w := length (controllers st) in
  let p := length (promises st) in
  let out := autoAbortExpiredRequest request arg st in
  exists evs view,
    Forall is_settle_event evs /\
    length view = S w /\
    view !! w = Some false /\
    (forall v, v < w -> view !! v = Some true) /\
    events_since st (fst out) =
      [EvConstruct w] ++ cancel_events st evs ++ [EvRecord w] ++ builder_events w arg ++
      match resolved w arg with
      | Normal requestArg =>
          [EvInvoke w requestArg; EvRequest w requestArg view]
            ++ invoked_events p (request requestArg)
      | Throw _ => []
      end /\
    snd out =
      match resolved w arg with
      | Normal _ => Normal p
      | Throw e => Throw e
      end /\
    aborted <$> controllers (fst out) = view /\
    (forall requestArg, resolved w arg = Normal requestArg ->
       promises (fst out) !! p = Some (invoked_promise (request requestArg))).
Proof.
  intros HI w p out. subst out.
  destruct (call_prepare st) as (st_c & evs & Hrun & Hc & Hk & Hl & Hp & Ht & Hs & Hn).
  fold w in Hrun, Hk, Ht.
  rewrite Hrun, getArg_spec. clear Hrun.
  assert (Hlen : length (controllers st_c) = S w).
  { rewrite Hc. destruct (cleanup st); rewrite ?mark_aborted_length, length_app; simpl; lia. }
  assert (Hw : controllers st_c !! w = Some fresh_controller).
  { rewrite Hc. destruct (cleanup st) as [previous|] eqn:Hkst.
    - rewrite mark_aborted_lookup. unfold w. rewrite lookup_snoc_length. simpl.
      rewrite bool_decide_eq_false_2; [done|].
      pose proof (inv_recorded _ HI _ Hkst). lia.
    - apply lookup_snoc_length. }
  assert (Hold : forall v, v < w -> (aborted <$> controllers st_c) !! v = Some true).
  { intros v Hv. rewrite list_lookup_fmap.
    destruct (controllers st !! v) as [c0|] eqn:Hv0; [|apply lookup_ge_None_1 in Hv0; unfold w in Hv; lia].
    rewrite Hc. destruct (cleanup st) as [previous|] eqn:Hkst.
    - rewrite mark_aborted_lookup, lookup_app_l, Hv0 by done. simpl.
      case_bool_decide; simpl; [done|]. f_equal.
      eapply inv_superseded; eauto; congruence.
    - rewrite lookup_app_l, Hv0 by done. simpl. f_equal.
      eapply inv_superseded; eauto; congruence. }
  exists evs, (aborted <$> controllers st_c).
  split; [done|]. split; [by rewrite length_fmap|].
  split; [by rewrite list_lookup_fmap, Hw|]. split; [done|].
  assert (Hgo : forall st_d pre requestArg,
    controllers st_d = controllers st_c -> promises st_d = promises st_c ->
    trace st_d = trace st ++ pre ->
    let out := fun_ request w requestArg st_d in
    events_since st (fst out) =
      pre ++ [EvInvoke w requestArg; EvRequest w requestArg (aborted <$> controllers st_c)]
        ++ invoked_events p (request requestArg) /\
    snd out = Normal p /\
    promises (fst out) !! p = Some (invoked_promise (request requestArg)) /\
    aborted <$> controllers (fst out) = aborted <$> controllers st_c).
  { intros st_d pre requestArg Hdc Hdp Hdt.
    rewrite (fun_live st_d w requestArg fresh_controller) by (by rewrite ?Hdc).
    simpl. rewrite Hdc, Hdp, Hdt, Hl. fold p. repeat split.
    - apply events_since_app. simpl. by rewrite <- !app_assoc.
    - unfold p. rewrite <- Hl. apply lookup_snoc_length.
    - by apply (fmap_aborted_insert _ _ fresh_controller). }
  unfold resolved, builder_events.
  destruct (builder_of arg) as [call|].
  - destruct (call w) as [requestArg|e] eqn:Hcallw.
    + destruct (Hgo (add_event (EvBuilder w) st_c)
                  ([EvConstruct w] ++ cancel_events st evs ++ [EvRecord w] ++ [EvBuilder w])
                  requestArg) as (He & Hr & Hpr & Hv); try done.
      { simpl. rewrite Ht. by rewrite <- !app_assoc. }
      split; [rewrite He; by rewrite <- !app_assoc|]. split; [done|]. split; [done|].
      by intros ? [= <-].
    + simpl. split; [|by repeat split].
      apply events_since_app. simpl. rewrite Ht. by rewrite <- !app_assoc.
  - destruct (Hgo st_c ([EvConstruct w] ++ cancel_events st evs ++ [EvRecord w]) arg)
      as (He & Hr & Hpr & Hv); try done.
    split; [rewrite He; by rewrite <- !app_assoc|]. split; [done|]. split; [done|].
    by intros ? [= <-].
Qed.

(** *** The race between cancellation and completion *)

Lemma settlements_cons_abort p w evs : settlements p (EvAbort w :: evs) = settlements p evs.
Proof. done. Qed.

Lemma race_step_inv w p ev st st' r :
  race_step w p ev st = (st', r) ->
  r = Normal tt /\
  (forall s, promises st !! p = Some s -> is_pending s = false ->
     promises st' !! p = Some s) /\
  (forall c, promises st !! p = Some Pending -> controllers st !! w = Some c ->
     aborted c = false -> p ∈ listeners c ->
     promises st' !! p = Some (race_outcome [ev])) /\
  exists new, trace st' = trace st ++ new /\
    (pending_at st p = false -> settlements p new = 0) /\
    (forall c, pending_at st p = true -> controllers st !! w = Some c ->
       aborted c = false -> p ∈ listeners c -> settlements p new = 1).
Proof.
  destruct ev as [|[res|err]]; simpl; intros H.
  - apply abort_inv in H as (-> & Hc & Hk & Hl & Hp & evs & Ht & Hs & Hn).
    split; [done|]. split; [|split].
    + intros s Hs' Hnp. eapply cancelled_lookup_settled; eauto.
    + intros c Hpend Hwc Ha Hin. eapply cancelled_lookup_fired; eauto.
      unfold live_listeners. by rewrite Hwc, Ha.
    + exists (EvAbort w :: evs). split; [done|]. rewrite settlements_cons_abort, Hn. split.
      * by intros ->.
      * intros c -> Hwc Ha Hin. unfold live_listeners. rewrite Hwc, Ha.
        by rewrite bool_decide_eq_true_2.
  - unfold then_callback, resolve in H.
    apply settle_inv in H as (-> & Hc & Hk & Hl & Hp & evs & Ht & Hs & Hn & _).
    split; [done|]. split; [|split].
    + intros s Hs' Hnp. rewrite Hp, Hs'. simpl. by rewrite Hnp.
    + intros c Hpend _ _ _. rewrite Hp, Hpend. simpl. by rewrite bool_decide_eq_true_2.
    + exists evs. split; [done|]. rewrite Hn. split; [by intros ->|by intros c ->].
  - unfold catch_callback, reject in H.
    apply settle_inv in H as (-> & Hc & Hk & Hl & Hp & evs & Ht & Hs & Hn & _).
    split; [done|]. split; [|split].
    + intros s Hs' Hnp. rewrite Hp, Hs'. simpl. by rewrite Hnp.
    + intros c Hpend _ _ _. rewrite Hp, Hpend. simpl. by rewrite bool_decide_eq_true_2.
    + exists evs. split; [done|]. rewrite Hn. split; [by intros ->|by intros c ->].
Qed.

Lemma pending_at_settled st p s :
  promises st !! p = Some s -> is_pending s = false -> pending_at st p = false.
Proof. unfold pending_at. intros -> Hs. by destruct s. Qed.

(** Once settled, a promise is left alone by every later event. *)
Lemma race_settled w p evs st s :
  promises st !! p = Some s -> is_pending s = false ->
  all_normal (snd (race w p evs st)) /\
  promises (fst (race w p evs st)) !! p = Some s /\
  exists new, trace (fst (race w p evs st)) = trace st ++ new /\ settlements p new = 0.
Proof.
  revert st. induction evs as [|ev evs IH]; intros st Hp Hs; simpl.
  - split; [constructor|]. split; [done|]. exists []. by rewrite app_nil_r.
  - destruct (race_step w p ev st) as [st1 r] eqn:H1.
    apply race_step_inv in H1 as (-> & Hkeep & _ & new1 & Ht1 & Hn1 & _).
    destruct (IH st1 (Hkeep _ Hp Hs) Hs) as (Hall & Hfin & new2 & Ht2 & Hn2).
    destruct (race w p evs st1) as [st2 rs]. simpl in *.
    split; [by constructor|]. split; [done|].
    exists (new1 ++ new2). split; [by rewrite Ht2, Ht1, app_assoc|].
    rewrite settlements_app, Hn2, Hn1; [done|]. by eapply pending_at_settled.
Qed.

Lemma race_outcome_settled ev evs : is_pending (race_outcome (ev :: evs)) = false.
Proof. by destruct ev as [|[]]. Qed.

(** A pending promise whose listener is registered on a live signal is
    settled by the first event, whichever it is. *)
Lemma race_pending w p evs st c :
  promises st !! p = Some Pending -> controllers st !! w = Some c ->
  aborted c = false -> p ∈ listeners c ->
  all_normal (snd (race w p evs st)) /\
  promises (fst (race w p evs st)) !! p = Some (race_outcome evs) /\
  exists new, trace (fst (race w p evs st)) = trace st ++ new /\
    settlements p new = (if is_pending (race_outcome evs) then 0 else 1).
Proof.
  intros Hp Hc Ha Hin. destruct evs as [|ev evs]; simpl race.
  - split; [constructor|]. split; [done|]. exists []. by rewrite app_nil_r.
  - destruct (race_step w p ev st) as [st1 r] eqn:H1.
    apply race_step_inv in H1 as (-> & _ & Hfirst & new1 & Ht1 & _ & Hn1).
    specialize (Hfirst c Hp Hc Ha Hin).
    assert (Hs : is_pending (race_outcome [ev]) = false) by apply race_outcome_settled.
    destruct (race_settled w p evs st1 _ Hfirst Hs) as (Hall & Hfin & new2 & Ht2 & Hn2).
    destruct (race w p evs st1) as [st2 rs]. simpl fst in *. simpl snd in *.
    split; [by constructor|]. split; [by destruct ev as [|[]]|].
    exists (new1 ++ new2). split; [by rewrite Ht2, Ht1, app_assoc|].
    rewrite settlements_app, Hn2, (Hn1 c); try done.
    + by rewrite race_outcome_settled.
    + by apply pending_at_true.
Qed.

End Facts.



(** ** The classifier *)

Lemma isAbortError_throws_iff (err : JsValue) :
  (exists e, isAbortError err = Throw e) <-> name_readable err = false.
Proof.
  unfold isAbortError, name_readable, get_name.
  destruct err; simpl; try (split; [intros [e He]; discriminate|discriminate]);
    try (split; [done|eauto]).
  destruct (lookup_prop "name" props) as [[v|e]|]; split; try done; eauto;
    intros [e' He']; discriminate.
Qed.

(** C2, as stated, fails: [isAbortError(null)] does not return, it throws
    a [TypeError]. *)
Lemma isAbortError_null_throws :
  isAbortError JsNull = Throw (TypeError "Cannot read properties of null (reading 'name')")
  /\ ~ (exists b, isAbortError JsNull = Normal b).
Proof. split; [reflexivity|]. intros [b Hb]. discriminate. Qed.

(** C2, amended: on every input whose [name] can be read (anything but
    [null], [undefined] and an object whose [name] getter throws),
    [isAbortError] returns, and it returns [true] exactly when the [name]
    property is the string ['AbortError']. *)
Theorem isAbortError_classifies (err : JsValue) :
  name_readable err = true ->
  isAbortError err = Normal (has_marker err).
Proof.
  unfold isAbortError, name_readable, has_marker, get_name.
  destruct err; simpl; try done.
  destruct (lookup_prop "name" props) as [[v|e]|]; try done.
  all: try (intros _; by destruct v).
Qed.

Lemma isAbortError_classifies_witness :
  isAbortError AbortError = Normal true /\ isAbortError boom = Normal false.
Proof.
  split.
  - exact (isAbortError_classifies AbortError eq_refl).
  - exact (isAbortError_classifies boom eq_refl).
Defined.

(** ** The coordinator's [abort] *)

(** C3: on a coordinator that was never called, [abort()] throws a
    [TypeError], because [cleanup] is still unassigned; the call path
    guards the same variable with [if (cleanup)]. *)
Theorem coordinator_abort_before_first_call_throws :
  autoAbortExpiredRequest_abort init
  = (init, Throw (TypeError "cleanup is not a function")).
Proof. reflexivity. Qed.

(** Once a wrapper is recorded, [abort()] returns, whatever state the
    wrapper and its promise are in. *)
Lemma coordinator_abort_after_call_returns st current :
  cleanup st = Some current -> snd (autoAbortExpiredRequest_abort st) = Normal tt.
Proof.
  intros Hk. unfold autoAbortExpiredRequest_abort, bind, get_state. rewrite Hk.
  destruct (abort current st) as [st' r] eqn:H. by apply abort_inv in H as (-> & _).
Qed.

Section Claims.

Variable request : list JsValue -> Result unit.

(** ** The wrapper *)

(** C7: invoked on a wrapper whose signal is already aborted, [fun_]
    returns a promise that is rejected with [AbortError] when the call
    returns, and [request] is not called: the call appends no [EvRequest]. *)
Theorem invoke_on_aborted_signal_rejects st w arg c :
  controllers st !! w = Some c -> aborted c = true ->
  let out := fun_ request w arg st in
  let p := length (promises st) in
  snd out = Normal p /\
  promises (fst out) !! p = Some (Rejected AbortError) /\
  isAbortError AbortError = Normal true /\
  events_since st (fst out) = [EvInvoke w arg; EvSettle p (Rejected AbortError)].
Proof.
  intros Hc Ha out p. subst out. rewrite (fun_aborted request st w arg c Hc Ha). simpl.
  repeat split.
  - apply lookup_snoc_length.
  - by apply events_since_app.
Qed.

(** C8: when [request] throws [e] instead of returning a promise, [fun_]
    still returns a promise, and that promise is rejected with [e]. *)
Theorem sync_throw_rejects_future st w arg c e :
  controllers st !! w = Some c -> aborted c = false ->
  request arg = Throw e ->
  let out := fun_ request w arg st in
  let p := length (promises st) in
  snd out = Normal p /\
  promises (fst out) !! p = Some (Rejected e).
Proof.
  intros Hc Ha He out p. subst out. rewrite (fun_live request st w arg c Hc Ha). simpl.
  split; [done|]. rewrite He. apply lookup_snoc_length.
Qed.

(** The same through the coordinator: the call returns a promise rejected
    with what [request] threw. *)
Lemma coordinator_rejects_on_sync_throw hist arg requestArg e :
  let st := run request hist init in
  resolved (length (controllers st)) arg = Normal requestArg ->
  request requestArg = Throw e ->
  let out := autoAbortExpiredRequest request arg st in
  snd out = Normal (length (promises st)) /\
  promises (fst out) !! length (promises st) = Some (Rejected e).
Proof.
  intros st Hres He out.
  destruct (call_spec request st arg (reachable_inv request hist))
    as (evs & view & _ & _ & _ & _ & _ & Hr & _ & Hp).
  fold out in Hr, Hp. rewrite Hres in Hr. split; [done|].
  rewrite (Hp _ Hres), He. done.
Qed.

(** C6: whatever sequence of cancellations and completions follows an
    invocation, no operation throws, the promise ends in the state decided
    at the invocation or else by the first event, and it is settled once if
    it is settled and never otherwise; after at least one event it is
    settled. *)
Theorem wrapper_settles_exactly_once st w c arg evs :
  controllers st !! w = Some c ->
  let p := length (promises st) in
  let initial := if aborted c then Rejected AbortError else invoked_promise (request arg) in
  let final := if is_pending initial then race_outcome evs else initial in
  let out := race w p evs (fst (fun_ request w arg st)) in
  snd (fun_ request w arg st) = Normal p /\
  all_normal (snd out) /\
  promises (fst out) !! p = Some final /\
  settlements p (events_since st (fst out)) = (if is_pending final then 0 else 1) /\
  (evs <> [] -> is_pending final = false).
Proof.
  intros Hc p initial final out. subst out final initial.
  destruct (aborted c) eqn:Ha.
  - rewrite (fun_aborted request st w arg c Hc Ha). simpl fst. simpl snd.
    split; [done|].
    edestruct (race_settled w p evs) as (Hall & Hfin & new & Ht & Hn);
      [| |split; [exact Hall|split; [exact Hfin|]]].
    + simpl. apply lookup_snoc_length.
    + done.
    + simpl in *. split; [|done].
      erewrite events_since_app; [|rewrite Ht, <- app_assoc; reflexivity].
      rewrite settlements_app, Hn. unfold settlements. simpl. fold p.
      by rewrite Nat.eqb_refl.
  - rewrite (fun_live request st w arg c Hc Ha). simpl fst. simpl snd.
    split; [done|]. fold p.
    destruct (request arg) as [[]|e] eqn:Hreq; simpl invoked_promise; simpl invoked_events.
    + edestruct (race_pending w p evs) as (Hall & Hfin & new & Ht & Hn);
        [| | | |split; [exact Hall|split; [exact Hfin|]]].
      * simpl. apply lookup_snoc_length.
      * simpl. apply list_lookup_insert_eq. by eapply lookup_lt_Some.
      * done.
      * simpl. apply elem_of_app. right. apply list_elem_of_here.
      * simpl in *. split.
        -- erewrite events_since_app; [|rewrite Ht, <- app_assoc; reflexivity].
           rewrite settlements_app, Hn. done.
        -- intros Hne. destruct evs; [done|apply race_outcome_settled].
    + edestruct (race_settled w p evs) as (Hall & Hfin & new & Ht & Hn);
        [| |split; [exact Hall|split; [exact Hfin|]]].
      * simpl. apply lookup_snoc_length.
      * done.
      * simpl in *. split; [|done].
        erewrite events_since_app; [|rewrite Ht, <- app_assoc; reflexivity].
        rewrite settlements_app, Hn. unfold settlements. simpl. fold p.
        by rewrite Nat.eqb_refl.
Qed.

(** ** The coordinator *)

Lemma bookkeeping_app evs1 evs2 : bookkeeping (evs1 ++ evs2) = bookkeeping evs1 ++ bookkeeping evs2.
Proof. apply List.filter_app. Qed.

Lemma bookkeeping_settle evs : Forall is_settle_event evs -> bookkeeping evs = [].
Proof.
  induction 1 as [|ev evs Hev _ IH]; [done|]. destruct ev; simpl in *; done.
Qed.

Lemma requested_settle evs : Forall is_settle_event evs -> requested evs = [].
Proof.
  induction 1 as [|ev evs Hev _ IH]; [done|]. destruct ev; simpl in *; done.
Qed.

Lemma builder_calls_settle evs : Forall is_settle_event evs -> builder_calls evs = [].
Proof.
  induction 1 as [|ev evs Hev _ IH]; [done|]. destruct ev; simpl in *; done.
Qed.

Lemma invoked_events_settle p c : Forall is_settle_event (invoked_events p c).
Proof. destruct c; repeat constructor. Qed.

Lemma cancel_events_bookkeeping st evs :
  Forall is_settle_event evs ->
  bookkeeping (cancel_events st evs) =
    match cleanup st with Some previous => [EvAbort previous] | None => [] end.
Proof.
  intros H. unfold cancel_events. destruct (cleanup st); [|done].
  simpl. by rewrite (bookkeeping_settle evs).
Qed.

(** C5, amended: a call runs its bookkeeping in the order of the source:
    it constructs the new wrapper, then calls the recorded cancel function
    if there is one, then records the new wrapper's cancel function, then
    resolves the arguments (calling the builder with the new signal in the
    single-callable form), and only then invokes the new wrapper, whose
    promise it returns; if the builder throws, the call throws the same
    after the first four steps. *)
Theorem bookkeeping_order hist arg :
  let st := run request hist init in
  let w := length (controllers st) in
  let out := autoAbortExpiredRequest request arg st in
  bookkeeping (events_since st (fst out)) =
    [EvConstruct w]
    ++ match cleanup st with Some previous => [EvAbort previous] | None => [] end
    ++ [EvRecord w]
    ++ builder_events w arg
    ++ match resolved w arg with
       | Normal requestArg => [EvInvoke w requestArg]
       | Throw _ => []
       end /\
  snd out =
    match resolved w arg with
    | Normal _ => Normal (length (promises st))
    | Throw e => Throw e
    end.
Proof.
  intros st w out.
  destruct (call_spec request st arg (reachable_inv request hist))
    as (evs & view & Hs & _ & _ & _ & He & Hr & _).
  fold w out in He, Hr. split; [|exact Hr]. rewrite He. clear He Hr.
  rewrite !bookkeeping_app, (cancel_events_bookkeeping st evs Hs). simpl.
  f_equal. f_equal. f_equal.
  assert (Hb : bookkeeping (builder_events w arg) = builder_events w arg).
  { unfold builder_events. by destruct (builder_of arg). }
  rewrite Hb. f_equal.
  destruct (resolved w arg) as [requestArg|e]; [|done].
  simpl. by rewrite (bookkeeping_settle _ (invoked_events_settle _ _)).
Qed.

(** C9: the single-callable form is recognised exactly when one argument
    was supplied and it is callable; then the callable is called once, with
    the new wrapper's signal, and [request] receives what it returned;
    in every other case the callable is not called and [request] receives
    the arguments as they came. *)
Theorem argument_forms hist arg :
  let st := run request hist init in
  let w := length (controllers st) in
  let evs := events_since st (fst (autoAbortExpiredRequest request arg st)) in
  (is_Some (builder_of arg) <-> length arg = 1 /\ typeof (first_arg arg) = "function") /\
  match builder_of arg with
  | Some call =>
      builder_calls evs = [w] /\
      requested evs = match call w with Normal requestArg => [requestArg] | Throw _ => [] end
  | None =>
      builder_calls evs = [] /\ requested evs = [arg]
  end.
Proof.
  intros st w evs. split.
  - unfold builder_of, first_arg.
    destruct arg as [|v [|v' rest]]; simpl.
    + split; [by intros [? ?]|by intros [? _]].
    + destruct v; simpl; split; try (by intros [? ?]); try (by intros [_ ?]); done.
    + destruct v; simpl; split; try (by intros [? ?]); try (by intros [? _]).
  - subst evs.
    destruct (call_spec request st arg (reachable_inv request hist))
      as (evs & view & Hs & _ & _ & _ & He & _).
    fold w in He. rewrite He. clear He.
    unfold builder_calls, requested. rewrite !omap_app.
    fold (builder_calls (cancel_events st evs)). fold (requested (cancel_events st evs)).
    assert (Hc1 : builder_calls (cancel_events st evs) = []).
    { unfold cancel_events. destruct (cleanup st); [|done]. simpl.
      by apply builder_calls_settle. }
    assert (Hc2 : requested (cancel_events st evs) = []).
    { unfold cancel_events. destruct (cleanup st); [|done]. simpl.
      by apply requested_settle. }
    rewrite Hc1, Hc2. unfold resolved, builder_events.
    destruct (builder_of arg) as [call|]; simpl.
    + destruct (call w) as [requestArg|e]; simpl; [|done].
      fold (builder_calls (invoked_events (length (promises st)) (request requestArg))).
      fold (requested (invoked_events (length (promises st)) (request requestArg))).
      by rewrite (builder_calls_settle _ (invoked_events_settle _ _)),
        (requested_settle _ (invoked_events_settle _ _)).
    + fold (builder_calls (invoked_events (length (promises st)) (request arg))).
      fold (requested (invoked_events (length (promises st)) (request arg))).
      by rewrite (builder_calls_settle _ (invoked_events_settle _ _)),
        (requested_settle _ (invoked_events_settle _ _)).
Qed.

Lemma not_request_in_settle w arg view evs :
  Forall is_settle_event evs -> EvRequest w arg view ∉ evs.
Proof.
  intros H Hin. rewrite Forall_forall in H. by apply H in Hin.
Qed.

(** C10: whatever happened before (manual aborts, cancelled calls), a
    call builds a wrapper that did not exist, whose signal is still
    unaborted when the call returns; and when the arguments resolve, the
    call returns a promise, [request] has been called with a view in which
    that signal is unaborted, and the promise is pending unless [request]
    threw. *)
Theorem every_call_starts_unaborted hist arg :
  let st := run request hist init in
  let w := length (controllers st) in
  let p := length (promises st) in
  let out := autoAbortExpiredRequest request arg st in
  controllers st !! w = None /\
  (aborted <$> controllers (fst out)) !! w = Some false /\
  forall requestArg, resolved w arg = Normal requestArg ->
    snd out = Normal p /\
    (exists view, EvRequest w requestArg view ∈ events_since st (fst out) /\
                  view !! w = Some false) /\
    promises (fst out) !! p = Some (invoked_promise (request requestArg)).
Proof.
  intros st w p out.
  destruct (call_spec request st arg (reachable_inv request hist))
    as (evs & view & Hs & _ & Hvw & Hold & He & Hr & Hv & Hp).
  fold w p out in He, Hr, Hv, Hp.
  split; [by apply lookup_ge_None_2|]. split; [by rewrite Hv|].
  intros requestArg Hres. rewrite Hres in He, Hr.
  split; [done|]. split; [|by apply Hp].
  exists view. split; [|done]. rewrite He.
  rewrite !elem_of_app. do 4 right. left. apply elem_of_cons. right. apply list_elem_of_here.
Qed.

(** C4: of two calls issued one after the other, the first builds a
    wrapper whose signal is unaborted when the first call returns and
    aborted when the second returns; every call of [request] made by the
    second call sees that signal aborted; and the second call does call
    [request] whenever it returns a promise. *)
Theorem previous_signal_aborted_before_next_request hist arg1 arg2 :
  let st0 := run request hist init in
  let w1 := length (controllers st0) in
  let st1 := fst (autoAbortExpiredRequest request arg1 st0) in
  let out2 := autoAbortExpiredRequest request arg2 st1 in
  (aborted <$> controllers st1) !! w1 = Some false /\
  (aborted <$> controllers (fst out2)) !! w1 = Some true /\
  (forall w arg view, EvRequest w arg view ∈ events_since st1 (fst out2) ->
     view !! w1 = Some true) /\
  (forall p, snd out2 = Normal p ->
     exists arg view, EvRequest (S w1) arg view ∈ events_since st1 (fst out2)).
Proof.
  intros st0 w1 st1 out2.
  pose proof (reachable_inv request hist) as HI0. fold st0 in HI0.
  destruct (call_spec request st0 arg1 HI0)
    as (evs1 & view1 & _ & Hlv1 & Hvw1 & _ & _ & _ & Hv1 & _).
  fold w1 st1 in Hlv1, Hvw1, Hv1.
  assert (Hcall1 : autoAbortExpiredRequest request arg1 st0
                   = (st1, snd (autoAbortExpiredRequest request arg1 st0)))
    by apply surjective_pairing.
  destruct (call_inv request _ _ _ _ HI0 Hcall1) as (HI1 & _).
  assert (Hlen1 : length (controllers st1) = S w1).
  { by rewrite <- Hlv1, <- Hv1, length_fmap. }
  destruct (call_spec request st1 arg2 HI1)
    as (evs2 & view2 & Hs2 & _ & Hvw2 & Hold2 & He2 & Hr2 & Hv2 & _).
  fold out2 in He2, Hr2, Hv2. rewrite Hlen1 in *.
  split; [by rewrite Hv1|]. split; [rewrite Hv2; apply Hold2; lia|]. split.
  - intros w arg view Hin. rewrite He2 in Hin.
    rewrite !elem_of_app in Hin.
    destruct Hin as [Hin|[Hin|[Hin|[Hin|Hin]]]].
    + apply list_elem_of_singleton in Hin. done.
    + unfold cancel_events in Hin. destruct (cleanup st1); [|by apply not_elem_of_nil in Hin].
      apply elem_of_cons in Hin as [Hin|Hin]; [done|].
      by apply not_request_in_settle in Hin.
    + apply list_elem_of_singleton in Hin. done.
    + unfold builder_events in Hin. destruct (builder_of arg2); [|by apply not_elem_of_nil in Hin].
      apply list_elem_of_singleton in Hin. done.
    + destruct (resolved (S w1) arg2) as [requestArg|e]; [|by apply not_elem_of_nil in Hin].
      rewrite elem_of_app in Hin. destruct Hin as [Hin|Hin].
      * apply elem_of_cons in Hin as [Hin|Hin]; [done|].
        apply list_elem_of_singleton in Hin. injection Hin as -> -> ->. apply Hold2. lia.
      * by apply (not_request_in_settle _ _ _ _ (invoked_events_settle _ _)) in Hin.
  - intros p Hp. rewrite Hr2 in Hp.
    destruct (resolved (S w1) arg2) as [requestArg|e]; [|done].
    exists requestArg, view2. rewrite He2.
    rewrite !elem_of_app. do 4 right. left. apply elem_of_cons. right. apply list_elem_of_here.
Qed.

Lemma length_issue calls st : length (issue request calls st) = length calls.
Proof.
  revert st. induction calls as [|arg rest IH]; intros st; simpl; [done|]. by rewrite IH.
Qed.

(** C1: take any history, then a burst of calls in which the promise
    returned by every call but the last is still pending when the next
    call is issued, then anything.  Every promise of the burst but the
    last is rejected with [AbortError], so that only the last one can be
    fulfilled. *)
Theorem at_most_one_resolves hist calls later :
  let st0 := run request hist init in
  let outs := issue request calls st0 in
  let final := run request later (after_burst request calls st0) in
  (forall i st_i p, outs !! i = Some (st_i, Normal p) -> S i < length calls ->
     promises st_i !! p = Some Pending) ->
  forall i st_i p, outs !! i = Some (st_i, Normal p) ->
    (S i < length calls ->
       promises final !! p = Some (Rejected AbortError) /\
       isAbortError AbortError = Normal true) /\
    (forall v, promises final !! p = Some (Fulfilled v) -> S i = length calls).
Proof.
  intros st0 outs final Hpend i st_i p Hi.
  assert (Hrej : S i < length calls -> promises final !! p = Some (Rejected AbortError)).
  { intros Hlt. eapply burst_superseded; eauto. apply reachable_inv. }
  split; [by split; auto|].
  intros v Hv. apply lookup_lt_Some in Hi. unfold outs in Hi. rewrite length_issue in Hi.
  destruct (decide (S i < length calls)) as [Hlt|Hge]; [|lia].
  rewrite (Hrej Hlt) in Hv. discriminate.
Qed.

End Claims.


(** ** The claims at sample inputs *)

Lemma invoke_on_aborted_signal_rejects_witness :
  snd (fun_ request_ok 0 [] aborted_wrapper) = Normal 0 /\
  promises (fst (fun_ request_ok 0 [] aborted_wrapper)) !! 0 = Some (Rejected AbortError) /\
  isAbortError AbortError = Normal true /\
  events_since aborted_wrapper (fst (fun_ request_ok 0 [] aborted_wrapper))
  = [EvInvoke 0 []; EvSettle 0 (Rejected AbortError)].
Proof.
  apply (invoke_on_aborted_signal_rejects request_ok aborted_wrapper 0 []
           {| aborted := true; listeners := [] |}); reflexivity.
Defined.

Lemma sync_throw_rejects_future_witness :
  snd (fun_ request_boom 0 [] fresh_wrapper) = Normal 0 /\
  promises (fst (fun_ request_boom 0 [] fresh_wrapper)) !! 0 = Some (Rejected boom).
Proof.
  apply (sync_throw_rejects_future request_boom fresh_wrapper 0 [] fresh_controller boom);
    reflexivity.
Defined.

Lemma wrapper_settles_exactly_once_witness :
  promises (fst (race 0 0 sample_race (fst (fun_ request_ok 0 [] fresh_wrapper)))) !! 0
  = Some (Fulfilled (JsNumber 1)) /\
  settlements 0
    (events_since fresh_wrapper (fst (race 0 0 sample_race (fst (fun_ request_ok 0 [] fresh_wrapper)))))
  = 1.
Proof.
  destruct (wrapper_settles_exactly_once request_ok fresh_wrapper 0 fresh_controller []
              sample_race eq_refl) as (_ & _ & Hfinal & Hcount & _).
  split; [exact Hfinal|exact Hcount].
Defined.

Lemma every_call_starts_unaborted_witness :
  snd (autoAbortExpiredRequest request_ok [builder_id7]
         (run request_ok [ACall [JsNumber 1]; AAbort] init)) = Normal 1 /\
  promises (fst (autoAbortExpiredRequest request_ok [builder_id7]
                   (run request_ok [ACall [JsNumber 1]; AAbort] init))) !! 1 = Some Pending.
Proof.
  destruct (every_call_starts_unaborted request_ok [ACall [JsNumber 1]; AAbort] [builder_id7])
    as (_ & _ & H).
  destruct (H _ eq_refl) as (Hr & _ & Hp).
  split; [exact Hr|exact Hp].
Defined.

Lemma previous_signal_aborted_before_next_request_witness :
  exists arg view,
    EvRequest 1 arg view
    ∈ events_since after_first_call
        (fst (autoAbortExpiredRequest request_ok [builder_id7] after_first_call)).
Proof.
  destruct (previous_signal_aborted_before_next_request request_ok [] [JsNumber 1] [builder_id7])
    as (_ & _ & _ & H).
  exact (H 1 eq_refl).
Defined.

Lemma at_most_one_resolves_witness :
  promises (run request_ok sample_later (after_burst request_ok sample_burst init)) !! 0
  = Some (Rejected AbortError) /\
  promises (run request_ok sample_later (after_burst request_ok sample_burst init)) !! 1
  = Some (Rejected AbortError) /\
  promises (run request_ok sample_later (after_burst request_ok sample_burst init)) !! 2
  = Some (Fulfilled (JsNumber 30)).
Proof.
  assert (Hpending : forall i st_i p,
    issue request_ok sample_burst (run request_ok [] init) !! i = Some (st_i, Normal p) ->
    S i < length sample_burst -> promises st_i !! p = Some Pending).
  { intros [|[|i]] st_i p Hi Hlt.
    - injection Hi as <- <-. reflexivity.
    - injection Hi as <- <-. reflexivity.
    - simpl in Hlt. lia. }
  split; [|split; [|reflexivity]].
  - destruct (at_most_one_resolves request_ok [] sample_burst sample_later Hpending
                0 _ 0 eq_refl) as [H _].
    apply H. simpl. lia.
  - destruct (at_most_one_resolves request_ok [] sample_burst sample_later Hpending
                1 _ 1 eq_refl) as [H _].
    apply H. simpl. lia.
Defined.

(** C5, as stated, fails: on the second call of a coordinator, the
    bookkeeping of the source and the bookkeeping in the order of the
    specification differ; and when the builder throws, the source has
    already recorded the new wrapper while the specified order has not. *)
Lemma bookkeeping_not_in_spec_order :
  bookkeeping (events_since after_first_call
    (fst (autoAbortExpiredRequest request_ok [builder_id7] after_first_call)))
  = [EvConstruct 1; EvAbort 0; EvRecord 1; EvBuilder 1;
     EvInvoke 1 [JsObject [("id", Normal (JsNumber 7)); ("signal", Normal (JsAbortSignal 1))]]]
  /\
  bookkeeping (events_since after_first_call
    (fst (spec_order_call request_ok [builder_id7] after_first_call)))
  = [EvAbort 0; EvConstruct 1; EvBuilder 1; EvRecord 1;
     EvInvoke 1 [JsObject [("id", Normal (JsNumber 7)); ("signal", Normal (JsAbortSignal 1))]]]
  /\
  autoAbortExpiredRequest request_ok [builder_id7] after_first_call
  <> spec_order_call request_ok [builder_id7] after_first_call
  /\
  cleanup (fst (autoAbortExpiredRequest request_ok [builder_boom] after_first_call)) = Some 1
  /\
  cleanup (fst (spec_order_call request_ok [builder_boom] after_first_call)) = Some 0.
Proof.
  split; [reflexivity|]. split; [reflexivity|]. split; [|split; reflexivity].
  intros H.
  apply (f_equal (fun out => bookkeeping (events_since after_first_call (fst out)))) in H.
  vm_compute in H. discriminate.
Qed.

(** ** Sample runs *)

Example first_call_trace :
  trace after_first_call
  = [EvConstruct 0; EvRecord 0; EvInvoke 0 [JsNumber 1]; EvRequest 0 [JsNumber 1] [false]].
Proof. reflexivity. Qed.

Example second_call_cancels_first :
  events_since after_first_call
    (fst (autoAbortExpiredRequest request_ok [JsNumber 2] after_first_call))
  = [EvConstruct 1; EvAbort 0; EvSettle 0 (Rejected AbortError); EvRecord 1;
     EvInvoke 1 [JsNumber 2]; EvRequest 1 [JsNumber 2] [true; false]].
Proof. reflexivity. Qed.

Example late_result_is_discarded :
  promises (run request_ok [ACall [JsNumber 1]; ACall [JsNumber 2]; AThen 0 (JsString "stale")] init)
  = [Rejected AbortError; Pending].
Proof. reflexivity. Qed.

Example single_function_among_two_is_forwarded :
  requested (trace (fst (autoAbortExpiredRequest request_ok [builder_id7; JsNull] init)))
  = [[builder_id7; JsNull]].
Proof. reflexivity. Qed.

Example isAbortError_samples :
  isAbortError AbortError = Normal true /\
  isAbortError boom = Normal false /\
  isAbortError (JsString "AbortError") = Normal false /\
  isAbortError (JsNumber 0) = Normal false /\
  isAbortError (JsObject []) = Normal false /\
  isAbortError JsUndefined
  = Throw (TypeError "Cannot read properties of undefined (reading 'name')").
Proof. repeat split. Qed.

(** * Further properties of the code *)

Section MoreFacts.

Variable request : list JsValue -> Result unit.

(** The heap a call leaves: the trace only grows, one promise is added
    when the arguments resolve and none otherwise, and the new wrapper
    carries the listener of that promise. *)
Lemma call_shape st arg :
  Inv st ->
  let w := length (controllers st) in
  let p := length (promises st) in
  let out := autoAbortExpiredRequest request arg st in
  (exists evs, trace (fst out) = trace st ++ evs) /\
  length (promises (fst out)) =
    match resolved w arg with Normal _ => S p | Throw _ => p end /\
  (forall q, q < p ->
     promises (fst out) !! q = cancelled (superseded_listeners st) q <$> promises st !! q).
Proof.
  intros HI w p out. subst out.
  destruct (call_prepare request st) as (st_c & evs & Hrun & Hc & Hk & Hl & Hp & Ht & Hs & Hn).
  fold w in Hrun, Hk, Ht.
  rewrite Hrun, getArg_spec. clear Hrun.
  assert (Hw : controllers st_c !! w = Some fresh_controller).
  { rewrite Hc. destruct (cleanup st) as [previous|] eqn:Hkst.
    - rewrite mark_aborted_lookup. unfold w. rewrite lookup_snoc_length. simpl.
      rewrite bool_decide_eq_false_2; [done|].
      pose proof (inv_recorded _ HI _ Hkst). lia.
    - apply lookup_snoc_length. }
  assert (Hgo : forall st_d pre requestArg,
    controllers st_d = controllers st_c -> promises st_d = promises st_c ->
    trace st_d = trace st ++ pre ->
    let out := fun_ request w requestArg st_d in
    (exists evs, trace (fst out) = trace st ++ evs) /\
    length (promises (fst out)) = S p /\
    (forall q, q < p ->
       promises (fst out) !! q = cancelled (superseded_listeners st) q <$> promises st !! q)).
  { intros st_d pre requestArg Hdc Hdp Hdt.
    rewrite (fun_live request st_d w requestArg fresh_controller) by (by rewrite ?Hdc).
    simpl. rewrite Hdp, Hdt. split; [|split].
    - eexists. by rewrite <- app_assoc.
    - rewrite length_app, Hl. simpl. unfold p. lia.
    - intros q Hq. rewrite lookup_app_l by (rewrite Hl; done). apply Hp. }
  unfold resolved.
  destruct (builder_of arg) as [call|].
  - destruct (call w) as [requestArg|e] eqn:Hcallw.
    + eapply Hgo; try done. simpl. rewrite Ht. by rewrite <- app_assoc.
    + simpl. split; [|split; [done|]].
      * eexists. rewrite Ht. by rewrite <- app_assoc.
      * intros q _. apply Hp.
  - eapply Hgo; done.
Qed.

Lemma requested_app evs1 evs2 : requested (evs1 ++ evs2) = requested evs1 ++ requested evs2.
Proof. apply omap_app. Qed.

Lemma requested_cancel_events st evs :
  Forall is_settle_event evs -> requested (cancel_events st evs) = [].
Proof.
  intros H. unfold cancel_events. destruct (cleanup st); [|done].
  simpl. fold (requested evs). by apply requested_settle.
Qed.

(** The events of one call, as an extension of the trace. *)
Lemma call_trace st arg :
  Inv st ->
  let w := length (controllers st) in
  let out := autoAbortExpiredRequest request arg st in
  exists evs,
    trace (fst out) = trace st ++ evs /\
    requested evs = match resolved w arg with Normal requestArg => [requestArg] | Throw _ => [] end /\
    Forall only_newest_live evs.
Proof.
  intros HI w out.
  destruct (call_shape st arg HI) as ((evs & Ht) & _).
  destruct (call_spec request st arg HI)
    as (evs0 & view & Hs & Hlv & Hvw & Hold & He & _).
  fold w out in Ht, He. rewrite (events_since_app _ _ _ Ht) in He.
  exists evs. split; [done|]. rewrite He. split.
  - rewrite !requested_app, (requested_cancel_events st evs0 Hs). simpl.
    assert (Hb : requested (builder_events w arg) = []).
    { unfold builder_events. by destruct (builder_of arg). }
    rewrite Hb. simpl.
    destruct (resolved w arg) as [requestArg|e]; [|done].
    simpl. fold (requested (invoked_events (length (promises st)) (request requestArg))).
    by rewrite (requested_settle _ (invoked_events_settle _ _)).
  - assert (Hsettle : forall l, Forall is_settle_event l -> Forall only_newest_live l).
    { intros l Hl. eapply Forall_impl; [exact Hl|]. by intros []. }
    repeat apply Forall_app_2.
    + by repeat constructor.
    + unfold cancel_events. destruct (cleanup st); [|constructor].
      constructor; [done|by apply Hsettle].
    + by repeat constructor.
    + unfold builder_events. destruct (builder_of arg); by repeat constructor.
    + destruct (resolved w arg) as [requestArg|e]; [|constructor].
      apply Forall_app_2; [|apply Hsettle, invoked_events_settle].
      constructor; [done|]. constructor; [|constructor]. simpl. done.
Qed.

(** The events of one action. *)
Lemma step_trace a st :
  Inv st ->
  exists evs,
    trace (step request a st) = trace st ++ evs /\
    length (requested evs) <= (if is_call a then 1 else 0) /\
    (match a with
     | ACall arg => builder_of arg = None -> length (requested evs) = 1
     | _ => True
     end) /\
    Forall only_newest_live evs.
Proof.
  intros HI.
  assert (Hsettle : forall l, Forall is_settle_event l -> Forall only_newest_live l).
  { intros l Hl. eapply Forall_impl; [exact Hl|]. by intros []. }
  destruct a as [arg| |p res|p err]; simpl.
  - destruct (call_trace st arg HI) as (evs & Ht & Hr & Hv).
    exists evs. split; [done|]. rewrite Hr. split; [|split; [|done]].
    + destruct (resolved _ arg); simpl; lia.
    + intros Hlit. unfold resolved. by rewrite Hlit.
  - unfold autoAbortExpiredRequest_abort, bind, get_state.
    destruct (cleanup st) as [current|].
    + destruct (abort current st) as [st' r] eqn:H.
      apply abort_inv in H as (-> & _ & _ & _ & _ & evs & Ht & Hs & _).
      exists (EvAbort current :: evs). simpl. split; [done|].
      fold (requested evs). rewrite (requested_settle _ Hs). simpl.
      split; [lia|]. split; [done|]. constructor; [done|by apply Hsettle].
    + exists []. simpl. rewrite app_nil_r. repeat split; try done; lia.
  - unfold then_callback, resolve.
    destruct (settle p (Fulfilled res) st) as [st' r] eqn:H.
    apply settle_inv in H as (-> & _ & _ & _ & _ & evs & Ht & Hs & _).
    exists evs. simpl. rewrite (requested_settle _ Hs). simpl.
    repeat split; try done; try lia; by apply Hsettle.
  - unfold catch_callback, reject.
    destruct (settle p (Rejected err) st) as [st' r] eqn:H.
    apply settle_inv in H as (-> & _ & _ & _ & _ & evs & Ht & Hs & _).
    exists evs. simpl. rewrite (requested_settle _ Hs). simpl.
    repeat split; try done; try lia; by apply Hsettle.
Qed.

Lemma run_trace hist st :
  Inv st ->
  exists evs,
    trace (run request hist st) = trace st ++ evs /\
    length (requested evs) <= length (calls_in hist) /\
    (literal_calls hist -> length (requested evs) = length (calls_in hist)) /\
    Forall only_newest_live evs.
Proof.
  revert st. induction hist as [|a hist IH]; intros st HI; simpl.
  - exists []. rewrite app_nil_r. repeat split; try done; constructor.
  - destruct (step_trace a st HI) as (evs1 & Ht1 & Hn1 & Hl1 & Hv1).
    destruct (step_inv request a st HI) as [HI1 _].
    destruct (IH _ HI1) as (evs2 & Ht2 & Hn2 & Hl2 & Hv2).
    exists (evs1 ++ evs2). split; [by rewrite Ht2, Ht1, app_assoc|].
    rewrite requested_app, length_app. unfold calls_in in *. simpl.
    split; [|split; [|by apply Forall_app_2]].
    + destruct (is_call a); simpl; lia.
    + intros Hlit. inversion Hlit as [|? ? Ha Hrest]; subst.
      rewrite (Hl2 Hrest). destruct a as [arg| | |]; simpl in *; try lia.
      rewrite (Hl1 Ha). done.
Qed.

(** X4: [request] is called only by calls of the coordinator, at most
    once per call: never by [abort()], never by a completion callback, and
    never a second time for the same call.  When every call passes its
    arguments literally, it is called exactly once per call. *)
Theorem request_called_once_per_call hist :
  length (requested (trace (run request hist init))) <= length (calls_in hist) /\
  (literal_calls hist ->
   length (requested (trace (run request hist init))) = length (calls_in hist)).
Proof.
  destruct (run_trace hist init Inv_init) as (evs & Ht & Hn & Hl & _).
  simpl in Ht. by rewrite Ht.
Qed.

(** X5: whenever [request] is called, the signal of the call being made
    is unaborted and is the newest one, and the signal of every earlier
    call is already aborted. *)
Theorem request_sees_only_newest_signal_live hist w arg view :
  EvRequest w arg view ∈ trace (run request hist init) ->
  length view = S w /\ view !! w = Some false /\
  forall v, v < w -> view !! v = Some true.
Proof.
  destruct (run_trace hist init Inv_init) as (evs & Ht & _ & _ & Hv).
  simpl in Ht. rewrite Ht. intros Hin.
  rewrite Forall_forall in Hv. exact (Hv _ Hin).
Qed.

Lemma step_last_pending a st :
  Inv st -> last_pending st -> last_pending (step request a st).
Proof.
  intros HI HJ. destruct a as [arg| |p res|p err]; simpl.
  - destruct (call_shape st arg HI) as (_ & Hlen & Hold).
    intros q Hq. pose proof (lookup_lt_Some _ _ _ Hq) as Hlt. rewrite Hlen in Hlt |- *.
    destruct (decide (q < length (promises st))) as [Hq'|Hq'].
    + exfalso. rewrite (Hold q Hq') in Hq.
      destruct (promises st !! q) as [s|] eqn:Hs; simpl in Hq; [|done].
      unfold cancelled in Hq. destruct s; simpl in Hq; try done.
      pose proof (inv_pending_superseded st q HI Hs) as Hin.
      by rewrite bool_decide_eq_true_2 in Hq.
    + destruct (resolved _ arg); lia.
  - unfold autoAbortExpiredRequest_abort, bind, get_state.
    destruct (cleanup st) as [current|]; [|done].
    destruct (abort current st) as [st' r] eqn:H.
    apply abort_inv in H as (-> & _ & _ & Hl & Hp & _). simpl.
    intros q Hq. rewrite Hl. apply HJ.
    by eapply cancelled_lookup_pending in Hq as [Hq _]; [|exact Hp].
  - unfold then_callback, resolve.
    destruct (settle p (Fulfilled res) st) as [st' r] eqn:H.
    apply settle_inv in H as (-> & _ & _ & Hl & Hp & _). simpl.
    intros q Hq. rewrite Hl. apply HJ. rewrite Hp in Hq.
    destruct (promises st !! q) as [[]|]; simpl in Hq; done.
  - unfold catch_callback, reject.
    destruct (settle p (Rejected err) st) as [st' r] eqn:H.
    apply settle_inv in H as (-> & _ & _ & Hl & Hp & _). simpl.
    intros q Hq. rewrite Hl. apply HJ. rewrite Hp in Hq.
    destruct (promises st !! q) as [[]|]; simpl in Hq; done.
Qed.

Lemma run_last_pending hist st :
  Inv st -> last_pending st -> last_pending (run request hist st).
Proof.
  revert st. induction hist as [|a hist IH]; intros st HI HJ; simpl; [done|].
  apply IH; [by apply step_inv|by apply step_last_pending].
Qed.

(** X3: at any moment at most one of the promises a coordinator has
    returned is pending, and it is the one returned last. *)
Theorem at_most_one_pending hist p q :
  let st := run request hist init in
  promises st !! p = Some Pending ->
  promises st !! q = Some Pending ->
  p = q /\ S p = length (promises st).
Proof.
  intros st Hp Hq.
  assert (HJ : last_pending st) by (apply run_last_pending; [apply Inv_init|by intros ?]).
  pose proof (HJ _ Hp). pose proof (HJ _ Hq). lia.
Qed.

Lemma step_keeps_recorded a st :
  Inv st -> is_Some (cleanup st) -> is_Some (cleanup (step request a st)).
Proof.
  intros HI [w Hw]. destruct a as [arg| |p res|p err]; simpl.
  - destruct (autoAbortExpiredRequest request arg st) as [st' r] eqn:H.
    apply call_inv in H as (_ & Hk & _); [|done]. simpl. rewrite Hk. eauto.
  - unfold autoAbortExpiredRequest_abort, bind, get_state. rewrite Hw.
    destruct (abort w st) as [st' r] eqn:H.
    apply abort_inv in H as (-> & _ & Hk & _). simpl. rewrite Hk. eauto.
  - unfold then_callback, resolve.
    destruct (settle p (Fulfilled res) st) as [st' r] eqn:H.
    apply settle_inv in H as (-> & _ & Hk & _). simpl. rewrite Hk. eauto.
  - unfold catch_callback, reject.
    destruct (settle p (Rejected err) st) as [st' r] eqn:H.
    apply settle_inv in H as (-> & _ & Hk & _). simpl. rewrite Hk. eauto.
Qed.

Lemma run_keeps_recorded hist st :
  Inv st -> is_Some (cleanup st) -> is_Some (cleanup (run request hist st)).
Proof.
  revert st. induction hist as [|a hist IH]; intros st HI Hk; simpl; [done|].
  apply IH; [by apply step_inv|by apply step_keeps_recorded].
Qed.

(** Once a call has been made, a cancel function stays recorded. *)
Lemma recorded_after_first_call hist st :
  Inv st -> calls_in hist <> [] -> is_Some (cleanup (run request hist st)).
Proof.
  revert st. induction hist as [|a hist IH]; intros st HI Hc; [done|].
  simpl. destruct a as [arg| |p res|p err].
  - apply run_keeps_recorded; [by apply step_inv|]. simpl.
    destruct (autoAbortExpiredRequest request arg st) as [st' r] eqn:H.
    apply call_inv in H as (_ & Hk & _); [|done]. simpl. rewrite Hk. eauto.
  - apply IH; [by apply step_inv|done].
  - apply IH; [by apply step_inv|done].
  - apply IH; [by apply step_inv|done].
Qed.

(** X2: once a call has been made, [abort()] on the coordinator returns
    normally; it rejects with [AbortError] the promise that was pending, if
    any, leaves settled promises as they are, calls [request] for nothing,
    and leaves no promise pending. *)
Theorem coordinator_abort_cancels_pending hist :
  calls_in hist <> [] ->
  let st := run request hist init in
  let out := autoAbortExpiredRequest_abort st in
  snd out = Normal tt /\
  (forall q, promises st !! q = Some Pending ->
     promises (fst out) !! q = Some (Rejected AbortError)) /\
  (forall q s, promises st !! q = Some s -> is_pending s = false ->
     promises (fst out) !! q = Some s) /\
  (forall q, promises (fst out) !! q <> Some Pending) /\
  requested (events_since st (fst out)) = [].
Proof.
  intros Hc st out.
  pose proof (reachable_inv request hist) as HI. fold st in HI.
  destruct (recorded_after_first_call hist init Inv_init Hc) as [w Hw]. fold st in Hw.
  subst out. unfold autoAbortExpiredRequest_abort, bind, get_state. rewrite Hw.
  destruct (abort w st) as [st' r] eqn:H.
  apply abort_inv in H as (-> & _ & _ & _ & Hp & evs & Ht & Hs & _). simpl.
  assert (Hsup : superseded_listeners st = live_listeners st w).
  { unfold superseded_listeners. by rewrite Hw. }
  split; [done|]. split; [|split; [|split]].
  - intros q Hq. eapply cancelled_lookup_fired; eauto.
    rewrite <- Hsup. by apply inv_pending_superseded.
  - intros q s Hq Hs'. eapply cancelled_lookup_settled; eauto.
  - intros q Hq. eapply cancelled_lookup_pending in Hq as [Hq Hnin]; [|exact Hp].
    apply Hnin. rewrite <- Hsup. by apply inv_pending_superseded.
  - rewrite (events_since_app _ _ _ Ht). simpl. fold (requested evs).
    by apply requested_settle.
Qed.

(** X6: when the argument builder throws, the call throws the same
    value, [request] is not called and no promise is created; yet the
    promise that was pending is already rejected with [AbortError], and the
    new wrapper is recorded, so that a following [abort()] returns. *)
Theorem throwing_builder_still_cancels hist arg e :
  let st := run request hist init in
  let out := autoAbortExpiredRequest request arg st in
  resolved (length (controllers st)) arg = Throw e ->
  snd out = Throw e /\
  requested (events_since st (fst out)) = [] /\
  length (promises (fst out)) = length (promises st) /\
  (forall q, promises st !! q = Some Pending ->
     promises (fst out) !! q = Some (Rejected AbortError)) /\
  cleanup (fst out) = Some (length (controllers st)) /\
  snd (autoAbortExpiredRequest_abort (fst out)) = Normal tt.
Proof.
  intros st out Hres.
  pose proof (reachable_inv request hist) as HI. fold st in HI.
  destruct (call_trace st arg HI) as (evs & Ht & Hr & _).
  destruct (call_shape st arg HI) as (_ & Hlen & _).
  destruct (call_spec request st arg HI) as (_ & _ & _ & _ & _ & _ & _ & Hsnd & _).
  fold out in Ht, Hlen, Hsnd. rewrite Hres in Hr, Hlen, Hsnd.
  assert (Hcall : autoAbortExpiredRequest request arg st = (fst out, snd out))
    by apply surjective_pairing.
  destruct (call_inv request _ _ _ _ HI Hcall) as (_ & Hk & Hrej & _).
  split; [done|]. split; [by rewrite (events_since_app _ _ _ Ht)|].
  split; [done|]. split; [done|]. split; [done|].
  by apply (coordinator_abort_after_call_returns _ _ Hk).
Qed.

Lemma settle_lookup p s st q :
  promises (fst (settle p s st)) !! q =
    (fun old => if is_pending old && bool_decide (q = p) then s else old) <$> promises st !! q.
Proof.
  destruct (settle p s st) as [st' r] eqn:H.
  by apply settle_inv in H as (_ & _ & _ & _ & Hp & _).
Qed.

Lemma run_others_keep_pending mid st p :
  Forall (completes_other p) mid ->
  promises st !! p = Some Pending ->
  promises (run request mid st) !! p = Some Pending.
Proof.
  revert st. induction mid as [|a mid IH]; intros st Hmid Hp; simpl; [done|].
  inversion Hmid as [|? ? Ha Hrest]; subst. apply IH; [done|].
  destruct a as [arg| |q res|q err]; simpl in *; try done.
  - unfold then_callback, resolve. rewrite settle_lookup, Hp. simpl.
    by rewrite bool_decide_eq_false_2 by congruence.
  - unfold catch_callback, reject. rewrite settle_lookup, Hp. simpl.
    by rewrite bool_decide_eq_false_2 by congruence.
Qed.

(** X1: the outcome of the underlying request passes through unchanged.
    After a call whose request returned a promise, and whatever late
    callbacks of other calls arrive meanwhile, the returned promise is
    still pending; it is then fulfilled with the very value the
    underlying promise fulfils with, or rejected with the very reason it
    rejects with. *)
Theorem underlying_outcome_passes_through hist arg requestArg mid res err :
  let st := run request hist init in
  let p := length (promises st) in
  let st1 := fst (autoAbortExpiredRequest request arg st) in
  resolved (length (controllers st)) arg = Normal requestArg ->
  request requestArg = Normal tt ->
  Forall (completes_other p) mid ->
  promises (run request mid st1) !! p = Some Pending /\
  promises (run request (mid ++ [AThen p res]) st1) !! p = Some (Fulfilled res) /\
  promises (run request (mid ++ [ACatch p err]) st1) !! p = Some (Rejected err).
Proof.
  intros st p st1 Hres Hreq Hmid.
  pose proof (reachable_inv request hist) as HI. fold st in HI.
  destruct (call_spec request st arg HI) as (_ & _ & _ & _ & _ & _ & _ & _ & _ & Hp).
  specialize (Hp _ Hres). rewrite Hreq in Hp. simpl in Hp. fold p st1 in Hp.
  pose proof (run_others_keep_pending mid st1 p Hmid Hp) as Hpend.
  split; [done|]. rewrite !run_app. simpl.
  unfold then_callback, catch_callback, resolve, reject.
  rewrite !settle_lookup, Hpend. simpl.
  by rewrite bool_decide_eq_true_2.
Qed.

Lemma cancelled_not_pending ls q s : is_pending s = false -> cancelled ls q s = s.
Proof. unfold cancelled. by intros ->. Qed.

(** A call made while no promise is pending adds one promise and touches
    no other. *)
Lemma call_when_idle st arg requestArg :
  Inv st ->
  (forall q, promises st !! q <> Some Pending) ->
  resolved (length (controllers st)) arg = Normal requestArg ->
  promises (fst (autoAbortExpiredRequest request arg st))
  = promises st ++ [invoked_promise (request requestArg)].
Proof.
  intros HI Hidle Hres.
  destruct (call_shape st arg HI) as (_ & Hlen & Hold).
  destruct (call_spec request st arg HI) as (_ & _ & _ & _ & _ & _ & _ & _ & _ & Hp).
  specialize (Hp _ Hres). rewrite Hres in Hlen.
  apply list_eq. intros q.
  destruct (decide (q < length (promises st))) as [Hq|Hq].
  - rewrite (Hold q Hq), lookup_app_l by done.
    destruct (promises st !! q) as [s|] eqn:Hs; simpl; [|done].
    rewrite cancelled_not_pending; [done|].
    destruct s; try done. by apply Hidle in Hs.
  - destruct (decide (q = length (promises st))) as [->|Hne].
    + by rewrite Hp, lookup_snoc_length.
    + rewrite !lookup_ge_None_2; [done| |]; rewrite ?length_app, ?Hlen; simpl; lia.
Qed.

Lemma spaced_calls_from st rounds :
  Inv st ->
  (forall q, promises st !! q <> Some Pending) ->
  Forall (fun round => builder_of round.1 = None /\ request round.1 = Normal tt) rounds ->
  promises (run request (spaced_actions (length (promises st)) rounds) st)
  = promises st ++ ((fun round => Fulfilled round.2) <$> rounds).
Proof.
  revert st. induction rounds as [|[arg res] rounds IH]; intros st HI Hidle Hrounds.
  - simpl. by rewrite app_nil_r.
  - inversion Hrounds as [|? ? [Hlit Hreq] Hrest]; subst. simpl in Hlit, Hreq.
    assert (Hres : resolved (length (controllers st)) arg = Normal arg)
      by (unfold resolved; by rewrite Hlit).
    pose proof (call_when_idle st arg arg HI Hidle Hres) as Hcall.
    rewrite Hreq in Hcall. simpl in Hcall.
    set (st1 := fst (autoAbortExpiredRequest request arg st)) in *.
    assert (HI1 : Inv st1) by apply (step_inv request (ACall arg) st HI).
    set (p := length (promises st)) in *.
    set (st2 := fst (then_callback p res st1)).
    assert (HI2 : Inv st2) by apply (step_inv request (AThen p res) st1 HI1).
    assert (Hp2 : promises st2 = promises st ++ [Fulfilled res]).
    { unfold st2, then_callback, resolve.
      rewrite settle_pending by (rewrite Hcall; apply lookup_snoc_length).
      simpl. rewrite Hcall. apply insert_snoc_length. }
    assert (Hidle2 : forall q, promises st2 !! q <> Some Pending).
    { intros q Hq. rewrite Hp2 in Hq.
      apply lookup_app_Some in Hq as [Hq|[_ Hq]]; [by apply Hidle in Hq|].
      destruct (q - length (promises st)) as [|[|n]]; simpl in Hq; done. }
    specialize (IH st2 HI2 Hidle2 Hrest).
    rewrite Hp2, length_app in IH. simpl in IH.
    replace (length (promises st) + 1) with (S p) in IH by (unfold p; lia).
    simpl. fold st1. fold st2. rewrite IH. by rewrite <- app_assoc.
Qed.

(** X7: calls spaced out in time do not disturb one another.  When each
    call is made after the previous one completed, every call delivers
    the result of its own request: after the rounds, the promises returned
    are fulfilled, in order, with the results of the rounds. *)
Theorem spaced_calls_each_deliver rounds :
  Forall (fun round => builder_of round.1 = None /\ request round.1 = Normal tt) rounds ->
  promises (run request (spaced_actions 0 rounds) init)
  = (fun round => Fulfilled round.2) <$> rounds.
Proof.
  intros Hrounds.
  apply (spaced_calls_from init rounds Inv_init); [|done].
  by intros q.
Qed.

(** X8: an outcome, once delivered, is final.  A promise that is
    fulfilled or rejected keeps its outcome through every later call,
    [abort()] and late callback; in particular the cancel function called
    at the start of the next call does not turn a delivered result into
    an [AbortError]. *)
Theorem settled_outcome_is_final hist later p s :
  promises (run request hist init) !! p = Some s ->
  is_pending s = false ->
  promises (run request (hist ++ later) init) !! p = Some s.
Proof.
  intros Hp Hs. rewrite run_app.
  by apply (run_inv request later _ (reachable_inv request hist)).
Qed.




(** *** A wrapper used on its own *)

Lemma wrapper_run_app w ops1 ops2 st :
  wrapper_run request w (ops1 ++ ops2) st
  = wrapper_run request w ops2 (wrapper_run request w ops1 st).
Proof. unfold wrapper_run. apply foldl_app. Qed.

Lemma wrapper_step_inv w base op st :
  wrapper_inv w base st -> wrapper_inv w base (wrapper_step request w op st).
Proof.
  unfold wrapper_inv. intros (c & Hc & Hpend). destruct op as [arg| |p res|p err]; simpl.
  - destruct (aborted c) eqn:Ha.
    + rewrite (fun_aborted request st w arg c Hc Ha). simpl.
      exists c. split; [done|]. intros q Hq Hp.
      destruct (decide (q < length (promises st))) as [Hlt|Hge].
      * rewrite lookup_app_l in Hp by done. by destruct (Hpend q Hq Hp).
      * apply lookup_lt_Some in Hp as Hlen. rewrite length_app in Hlen. simpl in Hlen.
        assert (q = length (promises st)) as -> by lia.
        by rewrite lookup_snoc_length in Hp.
    + rewrite (fun_live request st w arg c Hc Ha). simpl.
      eexists. split; [apply list_lookup_insert_eq; by eapply lookup_lt_Some|].
      simpl. intros q Hq Hp. split; [done|].
      destruct (decide (q < length (promises st))) as [Hlt|Hge].
      * rewrite lookup_app_l in Hp by done. apply elem_of_app. left. by apply Hpend.
      * apply lookup_lt_Some in Hp as Hlen. rewrite length_app in Hlen. simpl in Hlen.
        assert (q = length (promises st)) as -> by lia.
        apply elem_of_app. right. apply list_elem_of_here.
  - destruct (abort w st) as [st' r] eqn:H.
    apply abort_inv in H as (_ & Hcs & _ & _ & Hp & _). simpl.
    exists {| aborted := true; listeners := listeners c |}. split.
    + rewrite Hcs, mark_aborted_lookup, Hc. simpl. by rewrite bool_decide_eq_true_2.
    + intros q Hq Hq'. exfalso.
      eapply cancelled_lookup_pending in Hq' as [Hq' Hnin]; [|exact Hp].
      destruct (Hpend q Hq Hq') as [Ha Hin].
      apply Hnin. unfold live_listeners. by rewrite Hc, Ha.
  - unfold then_callback, resolve.
    destruct (settle p (Fulfilled res) st) as [st' r] eqn:H.
    apply settle_inv in H as (_ & Hcs & _ & _ & Hp & _). simpl.
    exists c. split; [by rewrite Hcs|]. intros q Hq Hq'. apply Hpend; [done|].
    rewrite Hp in Hq'. destruct (promises st !! q) as [[]|]; simpl in Hq'; done.
  - unfold catch_callback, reject.
    destruct (settle p (Rejected err) st) as [st' r] eqn:H.
    apply settle_inv in H as (_ & Hcs & _ & _ & Hp & _). simpl.
    exists c. split; [by rewrite Hcs|]. intros q Hq Hq'. apply Hpend; [done|].
    rewrite Hp in Hq'. destruct (promises st !! q) as [[]|]; simpl in Hq'; done.
Qed.

Lemma wrapper_run_inv w base ops st :
  wrapper_inv w base st -> wrapper_inv w base (wrapper_run request w ops st).
Proof.
  revert st. induction ops as [|op ops IH]; intros st HW; simpl; [done|].
  by apply IH, wrapper_step_inv.
Qed.

Lemma wrapper_created_inv st :
  wrapper_inv (length (controllers st)) (length (promises st)) (fst (createAbortAbleRequest st)).
Proof.
  exists fresh_controller. simpl. split; [apply lookup_snoc_length|].
  intros q Hq Hp. apply lookup_lt_Some in Hp. lia.
Qed.

(** X10: [abort()] on a wrapper rejects with [AbortError] every promise
    the wrapper has returned that is still pending, however many
    invocations are outstanding. *)
Theorem wrapper_abort_rejects_all_pending st ops q :
  let w := length (controllers st) in
  let before := wrapper_run request w ops (fst (createAbortAbleRequest st)) in
  length (promises st) <= q ->
  promises before !! q = Some Pending ->
  promises (fst (abort w before)) !! q = Some (Rejected AbortError).
Proof.
  intros w before Hq Hp.
  destruct (wrapper_run_inv w (length (promises st)) ops _ (wrapper_created_inv st))
    as (c & Hc & Hpend).
  fold before in Hc, Hpend. destruct (Hpend q Hq Hp) as [Ha Hin].
  destruct (abort w before) as [st' r] eqn:H.
  apply abort_inv in H as (_ & _ & _ & _ & Hp' & _). simpl.
  eapply cancelled_lookup_fired; eauto.
  unfold live_listeners. by rewrite Hc, Ha.
Qed.

Lemma wrapper_step_dead w base later op st :
  wrapper_dead w base later st ->
  wrapper_dead w base later (wrapper_step request w op st) /\
  exists evs, trace (wrapper_step request w op st) = trace st ++ evs /\ requested evs = [].
Proof.
  unfold wrapper_dead.
  intros ((c & Hc & Ha) & Hnop & Hrej). destruct op as [arg| |p res|p err]; simpl.
  - rewrite (fun_aborted request st w arg c Hc Ha). simpl. split; [split; [|split]|].
    + eauto.
    + intros q Hq Hp.
      destruct (decide (q < length (promises st))) as [Hlt|Hge].
      * rewrite lookup_app_l in Hp by done. by apply (Hnop q).
      * apply lookup_lt_Some in Hp as Hlen. rewrite length_app in Hlen. simpl in Hlen.
        assert (q = length (promises st)) as -> by lia.
        by rewrite lookup_snoc_length in Hp.
    + intros q Hq Hlen. rewrite length_app in Hlen. simpl in Hlen.
      destruct (decide (q < length (promises st))) as [Hlt|Hge].
      * rewrite lookup_app_l by done. by apply Hrej.
      * assert (q = length (promises st)) as -> by lia. apply lookup_snoc_length.
    + eexists. split; [done|]. done.
  - destruct (abort w st) as [st' r] eqn:H.
    apply abort_inv in H as (_ & Hcs & _ & Hl & Hp & evs & Ht & Hs & _). simpl.
    split; [split; [|split]|].
    + exists {| aborted := true; listeners := listeners c |}. split; [|done].
      rewrite Hcs, mark_aborted_lookup, Hc. simpl. by rewrite bool_decide_eq_true_2.
    + intros q Hq Hq'.
      eapply cancelled_lookup_pending in Hq' as [Hq' _]; [|exact Hp]. by apply (Hnop q).
    + intros q Hq Hlen. rewrite Hl in Hlen.
      eapply cancelled_lookup_settled; eauto.
    + exists (EvAbort w :: evs). split; [done|]. simpl. fold (requested evs).
      by apply requested_settle.
  - unfold then_callback, resolve.
    destruct (settle p (Fulfilled res) st) as [st' r] eqn:H.
    apply settle_inv in H as (_ & Hcs & _ & Hl & Hp & evs & Ht & Hs & _). simpl.
    split; [split; [|split]|].
    + exists c. by rewrite Hcs.
    + intros q Hq Hq'. apply (Hnop q Hq).
      rewrite Hp in Hq'. destruct (promises st !! q) as [[]|]; simpl in Hq'; done.
    + intros q Hq Hlen. rewrite Hl in Hlen. rewrite Hp, (Hrej q Hq Hlen). done.
    + exists evs. split; [done|]. by apply requested_settle.
  - unfold catch_callback, reject.
    destruct (settle p (Rejected err) st) as [st' r] eqn:H.
    apply settle_inv in H as (_ & Hcs & _ & Hl & Hp & evs & Ht & Hs & _). simpl.
    split; [split; [|split]|].
    + exists c. by rewrite Hcs.
    + intros q Hq Hq'. apply (Hnop q Hq).
      rewrite Hp in Hq'. destruct (promises st !! q) as [[]|]; simpl in Hq'; done.
    + intros q Hq Hlen. rewrite Hl in Hlen. rewrite Hp, (Hrej q Hq Hlen). done.
    + exists evs. split; [done|]. by apply requested_settle.
Qed.

Lemma wrapper_run_dead w base later ops st :
  wrapper_dead w base later st ->
  wrapper_dead w base later (wrapper_run request w ops st) /\
  exists evs, trace (wrapper_run request w ops st) = trace st ++ evs /\ requested evs = [].
Proof.
  revert st. induction ops as [|op ops IH]; intros st HD; simpl.
  - split; [done|]. exists []. by rewrite app_nil_r.
  - destruct (wrapper_step_dead w base later op st HD) as (HD1 & evs1 & Ht1 & Hr1).
    destruct (IH _ HD1) as (HD2 & evs2 & Ht2 & Hr2).
    split; [done|]. exists (evs1 ++ evs2).
    split; [by rewrite Ht2, Ht1, app_assoc|]. by rewrite requested_app, Hr1, Hr2.
Qed.

(** X11: a wrapper that was aborted stays aborted.  Whatever is done with
    it afterwards, [request] is never called again, every promise it
    returns from then on is rejected with [AbortError], and none of the
    promises it ever returned is pending. *)
Theorem aborted_wrapper_is_spent st ops1 ops2 :
  let w := length (controllers st) in
  let spent := wrapper_run request w (ops1 ++ [WAbort]) (fst (createAbortAbleRequest st)) in
  let final := wrapper_run request w ops2 spent in
  requested (events_since spent final) = [] /\
  (forall q, length (promises spent) <= q -> q < length (promises final) ->
     promises final !! q = Some (Rejected AbortError)) /\
  (forall q, length (promises st) <= q -> promises final !! q <> Some Pending).
Proof.
  intros w spent final.
  assert (HD : wrapper_dead w (length (promises st)) (length (promises spent)) spent).
  { unfold spent, wrapper_dead. rewrite wrapper_run_app.
    set (before := wrapper_run request w ops1 (fst (createAbortAbleRequest st))).
    change (wrapper_run request w [WAbort] before) with (fst (abort w before)).
    destruct (wrapper_run_inv w (length (promises st)) ops1 _ (wrapper_created_inv st))
      as (c & Hc & Hpend).
    fold before in Hc, Hpend.
    destruct (abort w before) as [st' r] eqn:H.
    apply abort_inv in H as (_ & Hcs & _ & Hl & Hp & _). simpl.
    split; [|split].
    - exists {| aborted := true; listeners := listeners c |}. split; [|done].
      rewrite Hcs, mark_aborted_lookup, Hc. simpl. by rewrite bool_decide_eq_true_2.
    - intros q Hq Hq'.
      eapply cancelled_lookup_pending in Hq' as [Hq' Hnin]; [|exact Hp].
      destruct (Hpend q Hq Hq') as [Ha Hin].
      apply Hnin. unfold live_listeners. by rewrite Hc, Ha.
    - intros q Hq Hlen. lia. }
  destruct (wrapper_run_dead w _ _ ops2 spent HD) as ((_ & Hnop & Hrej) & evs & Ht & Hr).
  fold final in Hnop, Hrej, Ht.
  split; [by rewrite (events_since_app _ _ _ Ht)|]. split; done.
Qed.

(** *** The caller of the usage notes *)

























End MoreFacts.

(** ** The further properties at sample inputs *)

Lemma underlying_outcome_passes_through_witness :
  promises (run request_ok ([AThen 0 (JsString "stale")] ++ [AThen 1 (JsString "fresh")])
              (fst (autoAbortExpiredRequest request_ok [JsNumber 2] after_first_call))) !! 1
  = Some (Fulfilled (JsString "fresh")).
Proof.
  assert (Hmid : Forall (completes_other 1) [AThen 0 (JsString "stale")]).
  { repeat constructor. simpl. lia. }
  destruct (underlying_outcome_passes_through request_ok [ACall [JsNumber 1]] [JsNumber 2]
              [JsNumber 2] [AThen 0 (JsString "stale")] (JsString "fresh") JsNull
              eq_refl eq_refl Hmid)
    as (_ & H & _).
  exact H.
Defined.

Lemma coordinator_abort_cancels_pending_witness :
  snd (autoAbortExpiredRequest_abort (run request_ok sample_two_calls init)) = Normal tt /\
  promises (fst (autoAbortExpiredRequest_abort (run request_ok sample_two_calls init))) !! 1
  = Some (Rejected AbortError).
Proof.
  assert (Hcalls : calls_in sample_two_calls <> []) by discriminate.
  destruct (coordinator_abort_cancels_pending request_ok sample_two_calls Hcalls)
    as (Hr & Hrej & _).
  split; [exact Hr|]. apply Hrej. reflexivity.
Defined.

Lemma at_most_one_pending_witness :
  1 = 1 /\ 2 = length (promises (run request_ok sample_two_calls init)).
Proof.
  apply (at_most_one_pending request_ok sample_two_calls 1 1); reflexivity.
Defined.

Lemma request_called_once_per_call_witness :
  length (requested (trace (run request_ok (sample_two_calls ++ [AAbort]) init))) = 2.
Proof.
  destruct (request_called_once_per_call request_ok (sample_two_calls ++ [AAbort])) as [_ H].
  apply H. repeat constructor.
Defined.

Lemma request_sees_only_newest_signal_live_witness :
  length [true; false] = 2 /\ [true; false] !! 1 = Some false /\
  forall v, v < 1 -> [true; false] !! v = Some true.
Proof.
  apply (request_sees_only_newest_signal_live request_ok sample_two_calls 1 [JsNumber 2]).
  apply list_elem_of_lookup. exists 9. reflexivity.
Defined.

Lemma throwing_builder_still_cancels_witness :
  snd (autoAbortExpiredRequest request_ok [builder_boom] (run request_ok [ACall [JsNumber 1]] init))
  = Throw boom /\
  promises (fst (autoAbortExpiredRequest request_ok [builder_boom]
                   (run request_ok [ACall [JsNumber 1]] init))) !! 0
  = Some (Rejected AbortError).
Proof.
  destruct (throwing_builder_still_cancels request_ok [ACall [JsNumber 1]] [builder_boom] boom
              eq_refl) as (Hr & _ & _ & Hrej & _).
  split; [exact Hr|]. apply Hrej. reflexivity.
Defined.

Lemma spaced_calls_each_deliver_witness :
  promises (run request_ok (spaced_actions 0 sample_rounds) init)
  = [Fulfilled (JsString "a"); Fulfilled (JsString "b")].
Proof.
  apply (spaced_calls_each_deliver request_ok sample_rounds).
  repeat constructor.
Defined.

Lemma settled_outcome_is_final_witness :
  promises (run request_ok ([ACall [JsNumber 1]; AThen 0 (JsString "a")] ++ [ACall [JsNumber 2]; AAbort])
              init) !! 0
  = Some (Fulfilled (JsString "a")).
Proof.
  apply (settled_outcome_is_final request_ok [ACall [JsNumber 1]; AThen 0 (JsString "a")]);
    reflexivity.
Defined.


Lemma wrapper_abort_rejects_all_pending_witness :
  promises (fst (abort 0 (wrapper_run request_ok 0 sample_ops (fst (createAbortAbleRequest init))))) !! 0
  = Some (Rejected AbortError) /\
  promises (fst (abort 0 (wrapper_run request_ok 0 sample_ops (fst (createAbortAbleRequest init))))) !! 1
  = Some (Rejected AbortError).
Proof.
  split.
  - apply (wrapper_abort_rejects_all_pending request_ok init sample_ops 0); [simpl; lia|reflexivity].
  - apply (wrapper_abort_rejects_all_pending request_ok init sample_ops 1); [simpl; lia|reflexivity].
Defined.

Lemma aborted_wrapper_is_spent_witness :
  requested (events_since
    (wrapper_run request_ok 0 (sample_ops ++ [WAbort]) (fst (createAbortAbleRequest init)))
    (wrapper_run request_ok 0 [WInvoke [JsNumber 3]]
       (wrapper_run request_ok 0 (sample_ops ++ [WAbort]) (fst (createAbortAbleRequest init)))))
  = [] /\
  promises (wrapper_run request_ok 0 [WInvoke [JsNumber 3]]
       (wrapper_run request_ok 0 (sample_ops ++ [WAbort]) (fst (createAbortAbleRequest init)))) !! 2
  = Some (Rejected AbortError).
Proof.
  destruct (aborted_wrapper_is_spent request_ok init sample_ops [WInvoke [JsNumber 3]])
    as (Hr & Hrej & _).
  split; [exact Hr|]. apply Hrej; simpl; lia.
Defined.


